(** * Collatz: a shallow embedding of [collatz.py] and its specification

    Python integers are unbounded, so every [int] of the source is a [Z].
    Python's [%] and [//] with a positive divisor are floor modulo and floor
    division, which are [Z.modulo] and [Z.div].

    The [while] loops of the source are not known to terminate (that is the
    Collatz conjecture), so every loop is a [Fixpoint] on a [fuel : nat]
    that bounds the number of iterations: [None] means that the fuel ran
    out before the loop was left, [Some r] that the loop was left with
    result [r].  The theorems give the result for every fuel from a bound
    on, so [Some r] is what the Python function returns. *)

From Stdlib Require Import ZArith List Lia Bool QArith Sorted Permutation.
Import ListNotations.

Local Open Scope Z_scope.

(** ** Exceptions and true division *)

Inductive exn : Type :=
| ZeroDivisionError.

Inductive outcome (A : Type) : Type :=
| Returned (a : A)
| Raised (e : exn).

Arguments Returned {A} a.
Arguments Raised {A} e.

(** Python's [a / b] on two [int]s raises [ZeroDivisionError] when [b] is
    zero and otherwise returns the binary64 float nearest to the exact
    quotient.  The model keeps the exact quotient as a rational: [Returned q]
    stands for the float that Python rounds [q] to.  Rounding, and the
    [OverflowError] of a quotient beyond the binary64 range, are not
    modelled. *)
Definition truediv (a b : Z) : outcome Q :=
  if b =? 0 then Raised ZeroDivisionError
  else Returned (inject_Z a / inject_Z b)%Q.

(** ** The source functions *)

(** [isPo2]: the halving loop, then the test [n == 1]. *)
Fixpoint isPo2_loop (fuel : nat) (n : Z) : option Z :=
  if n mod 2 =? 0 then
    match fuel with
    | O => None
    | S fuel' => isPo2_loop fuel' (n / 2)
    end
  else Some n.

Definition isPo2 (fuel : nat) (n : Z) : option bool :=
  match isPo2_loop fuel n with
  | Some n' => Some (n' =? 1)
  | None => None
  end.

(** [colgen]: the generator yields [n], then one value per iteration of
    [while n > 1].  The model is the list of the yielded values. *)
Fixpoint colgen_loop (fuel : nat) (n : Z) : option (list Z) :=
  if n >? 1 then
    match fuel with
    | O => None
    | S fuel' =>
        let n := if n mod 2 =? 0 then n / 2 else n * 3 + 1 in
        option_map (cons n) (colgen_loop fuel' n)
    end
  else Some [].

Definition colgen (fuel : nat) (n : Z) : option (list Z) :=
  option_map (cons n) (colgen_loop fuel n).

(** [redcolgen]: as [colgen], with the halved odd step. *)
Fixpoint redcolgen_loop (fuel : nat) (n : Z) : option (list Z) :=
  if n >? 1 then
    match fuel with
    | O => None
    | S fuel' =>
        let n := if n mod 2 =? 0 then n / 2 else (n * 3 + 1) / 2 in
        option_map (cons n) (redcolgen_loop fuel' n)
    end
  else Some [].

Definition redcolgen (fuel : nat) (n : Z) : option (list Z) :=
  option_map (cons n) (redcolgen_loop fuel n).

(** [C(n) = list(colgen(n))], [T(n) = list(redcolgen(n))],
    [tst(n) = len(list(colgen(n)))]. *)
Definition C (fuel : nat) (n : Z) : option (list Z) := colgen fuel n.

Definition T (fuel : nat) (n : Z) : option (list Z) := redcolgen fuel n.

Definition tst (fuel : nat) (n : Z) : option Z :=
  option_map (fun l => Z.of_nat (length l)) (colgen fuel n).

(** [st]: the early return for an even start, then the loop
    [while not (n == 1)] with its [break]. *)
Fixpoint st_loop (fuel : nat) (n_start n k : Z) : option Z :=
  if negb (n =? 1) then
    match fuel with
    | O => None
    | S fuel' =>
        let k := k + 1 in
        if n mod 2 =? 0 then
          let n := n / 2 in
          if n <? n_start then Some k
          else st_loop fuel' n_start n k
        else
          let n := (3 * n + 1) / 2 in
          let k := k + 1 in
          st_loop fuel' n_start n k
    end
  else Some k.

Definition st (fuel : nat) (n : Z) : option Z :=
  if n mod 2 =? 0 then Some 1
  else
    let k := 0 in
    let n_start := n in
    st_loop fuel n_start n k.

(** [residue]: the counting loop leaves the pair [(e, o)]. *)
Fixpoint residue_loop (fuel : nat) (n e o : Z) : option (Z * Z) :=
  if negb (n =? 1) then
    match fuel with
    | O => None
    | S fuel' =>
        if n mod 2 =? 0 then
          residue_loop fuel' (n / 2) (e + 1) o
        else
          residue_loop fuel' ((3 * n + 1) / 2) (e + 1) (o + 1)
    end
  else Some (e, o).

Definition residue (fuel : nat) (n : Z) : option (outcome Q) :=
  let n_start := n in
  match residue_loop fuel n 0 0 with
  | Some (e, o) => Some (truediv (2 ^ e) (3 ^ o * n_start))
  | None => None
  end.

(** [completeness]: the same counting loop, written out again in the
    source. *)
Fixpoint completeness_loop (fuel : nat) (n e o : Z) : option (Z * Z) :=
  if negb (n =? 1) then
    match fuel with
    | O => None
    | S fuel' =>
        if n mod 2 =? 0 then
          completeness_loop fuel' (n / 2) (e + 1) o
        else
          completeness_loop fuel' ((3 * n + 1) / 2) (e + 1) (o + 1)
    end
  else Some (e, o).

Definition completeness (fuel : nat) (n : Z) : option (outcome Q) :=
  match completeness_loop fuel n 0 0 with
  | Some (e, o) => Some (truediv o e)
  | None => None
  end.

(** [CtoPo2]: [seq_list] is the accumulator; each iteration first calls
    [isPo2], which has a loop of its own. *)
Fixpoint CtoPo2_loop (fuel : nat) (n : Z) (seq_list : list Z)
  : option (list Z) :=
  match isPo2 fuel n with
  | None => None
  | Some true => Some seq_list
  | Some false =>
      match fuel with
      | O => None
      | S fuel' =>
          let n := if n mod 2 =? 0 then n / 2 else 3 * n + 1 in
          CtoPo2_loop fuel' n (seq_list ++ [n])
      end
  end.

Definition CtoPo2 (fuel : nat) (n : Z) : option (list Z) :=
  CtoPo2_loop fuel n [].

(** [uptree]. *)
Definition uptree (n : Z) : list Z :=
  let m := [] in
  let m := m ++ [n * 2] in
  if n mod 6 =? 4 then m ++ [(n - 1) / 3] else m.

(** Python's [sorted] on a list of integers: insertion from the right keeps
    equal elements in their order, as the built-in stable sort does. *)
Fixpoint insert_sorted (x : Z) (l : list Z) : list Z :=
  match l with
  | [] => [x]
  | y :: l' => if x <=? y then x :: l else y :: insert_sorted x l'
  end.

Definition sorted (l : list Z) : list Z := fold_right insert_sorted [] l.

(** [Tree]: the object holds [root] and [steps]; [for step in
    range(1, steps + 1)] runs [Z.to_nat steps] times and never reads
    [step]; [branches[-1]] is the last generation. *)
Record Tree : Type := mkTree { root : Z; steps : Z }.

Definition extend_all (branch : list Z) : list Z :=
  fold_left (fun nextbranch numbers => nextbranch ++ uptree numbers) branch [].

Fixpoint tree_loop (count : nat) (tree : list Z) (branches : list (list Z))
  : list Z * list (list Z) :=
  match count with
  | O => (tree, branches)
  | S count' =>
      let nextbranch := extend_all (last branches []) in
      tree_loop count' (tree ++ nextbranch) (branches ++ [nextbranch])
  end.

Definition tree (self : Tree) : list Z * list (list Z) :=
  let root := root self in
  let steps := steps self in
  let '(tree, branches) := tree_loop (Z.to_nat steps) [root] [[root]] in
  (sorted tree, branches).

(** ** Vocabulary of the specification *)

(** The Collatz map and its reduced variant, as the specification states
    them. *)
Definition collatz_step (n : Z) : Z :=
  if Z.even n then n / 2 else 3 * n + 1.

Definition reduced_step (n : Z) : Z :=
  if Z.even n then n / 2 else (3 * n + 1) / 2.

(** [iterate f k n] is the value reached from [n] after [k] steps of [f]. *)
Fixpoint iterate (f : Z -> Z) (k : nat) (n : Z) : Z :=
  match k with
  | O => n
  | S k' => iterate f k' (f n)
  end.

(** [first_hit P f k n]: step [k] is the first one of the walk of [f] from
    [n] at which [P] holds. *)
Definition first_hit (P : Z -> Prop) (f : Z -> Z) (k : nat) (n : Z) : Prop :=
  P (iterate f k n) /\ forall i, (i < k)%nat -> ~ P (iterate f i n).

Definition reaches_one (n : Z) : Prop :=
  exists k, iterate collatz_step k n = 1.

Definition is_power_of_two (n : Z) : Prop :=
  exists k, 0 <= k /\ n = 2 ^ k.

(** The values visited after [n]: steps [1] to [k] of the walk. *)
Definition visited_after (f : Z -> Z) (k : nat) (n : Z) : list Z :=
  map (fun i => iterate f i n) (seq 1 k).

(** The number of odd values among the first [k] of the walk of the reduced
    step from [n]. *)
Fixpoint odd_count (k : nat) (n : Z) : Z :=
  match k with
  | O => 0
  | S k' => (if Z.odd n then 1 else 0) + odd_count k' (reduced_step n)
  end.

(** The numbers of even and of odd values among the first [k] of the
    standard walk from [n]: the [E(N)] and [O(N)] of the docstring of
    [residue] when [k] is the step at which [1] is reached. *)
Fixpoint standard_even_count (k : nat) (n : Z) : Z :=
  match k with
  | O => 0
  | S k' => (if Z.even n then 1 else 0) + standard_even_count k' (collatz_step n)
  end.

Fixpoint standard_odd_count (k : nat) (n : Z) : Z :=
  match k with
  | O => 0
  | S k' => (if Z.odd n then 1 else 0) + standard_odd_count k' (collatz_step n)
  end.

(** The condition on which [st] stops: the value is below the start, or
    is [1]. *)
Definition descended (n_start v : Z) : Prop := v < n_start \/ v = 1.

(** The rule between consecutive elements of a standard trajectory, and of
    a reduced one. *)
Definition standard_rule (x y : Z) : Prop :=
  (Z.even x = true -> y = x / 2) /\ (Z.even x = false -> y = 3 * x + 1).

Definition reduced_rule (x y : Z) : Prop :=
  (Z.even x = true -> y = x / 2) /\ (Z.even x = false -> y = (3 * x + 1) / 2).

(** Every consecutive pair of [l] is in [R]. *)
Fixpoint follows (R : Z -> Z -> Prop) (l : list Z) : Prop :=
  match l with
  | x :: ((y :: _) as l') => R x y /\ follows R l'
  | _ => True
  end.

(** The shape of a trajectory from [n]: it starts with [n], consecutive
    elements follow the rule, it ends with [1] and has no [1] before. *)
Definition trajectory_shape (R : Z -> Z -> Prop) (n : Z) (l : list Z) : Prop :=
  hd_error l = Some n /\
  follows R l /\
  exists front, l = front ++ [1] /\ ~ In 1 front.

(** A list that ends at its first power of two. *)
Definition ends_at_first_power_of_two (l : list Z) : Prop :=
  exists front x, l = front ++ [x] /\ is_power_of_two x /\
                  forall y, In y front -> ~ is_power_of_two y.

(** Generation [g] of the tree above [r]: the predecessors, in order, of
    every element of generation [g - 1]. *)
Fixpoint generation (r : Z) (g : nat) : list Z :=
  match g with
  | O => [r]
  | S g' => flat_map uptree (generation r g')
  end.

(** A list without the element that comes right after each odd element:
    [skip] tells that the head is such an element. *)
Fixpoint drop_after_odd (skip : bool) (l : list Z) : list Z :=
  match l with
  | [] => []
  | x :: l' =>
      if skip then drop_after_odd false l'
      else x :: drop_after_odd (Z.odd x) l'
  end.

(** The loop shared by the two generators, over the step function. *)
Fixpoint walk_loop (f : Z -> Z) (fuel : nat) (n : Z) : option (list Z) :=
  if n >? 1 then
    match fuel with
    | O => None
    | S fuel' => option_map (cons (f n)) (walk_loop f fuel' (f n))
    end
  else Some [].

(** ** Arithmetic of parity *)

Lemma mod2_eqb_even (n : Z) : (n mod 2 =? 0) = Z.even n.
Proof.
  rewrite Zeven_mod. reflexivity.
Qed.

Lemma even_double_half (n : Z) : Z.even n = true -> n = 2 * (n / 2).
Proof.
  intros H. rewrite Zeven_mod in H. apply Z.eqb_eq in H.
  pose proof (Z.div_mod n 2). lia.
Qed.

Lemma odd_double_half (n : Z) : Z.even n = false -> n = 2 * (n / 2) + 1.
Proof.
  intros H. rewrite Zeven_mod in H. apply Z.eqb_neq in H.
  pose proof (Z.div_mod n 2). pose proof (Z.mod_pos_bound n 2). lia.
Qed.

Lemma pow2_pos (e : Z) : 0 <= e -> 0 < 2 ^ e.
Proof.
  intros H. apply Z.pow_pos_nonneg; lia.
Qed.

Lemma pow2_succ (e : Z) : 0 <= e -> 2 ^ (e + 1) = 2 * 2 ^ e.
Proof.
  intros H. rewrite Z.pow_add_r by lia. lia.
Qed.

(** An odd factor of a power of two is one. *)
Lemma odd_factor_of_pow2 (m e k : Z) :
  0 <= e -> 0 <= k -> Z.even m = false -> 2 ^ k = m * 2 ^ e -> m = 1.
Proof.
  intros He Hk Hm Heq.
  pose proof (odd_double_half m Hm) as Hodd.
  destruct (Z_le_gt_dec e k) as [Hle | Hgt].
  - replace k with ((k - e) + e) in Heq by lia.
    rewrite Z.pow_add_r in Heq by lia.
    pose proof (pow2_pos e He) as Hpos.
    assert (Hm2 : m = 2 ^ (k - e)) by nia.
    destruct (Z.eq_dec (k - e) 0) as [H0 | H0].
    + rewrite H0 in Hm2. simpl in Hm2. exact Hm2.
    + replace (k - e) with ((k - e - 1) + 1) in Hm2 by lia.
      rewrite pow2_succ in Hm2 by lia. lia.
  - replace e with ((e - k - 1) + 1 + k) in Heq by lia.
    rewrite Z.pow_add_r in Heq by lia.
    rewrite pow2_succ in Heq by lia.
    pose proof (pow2_pos k Hk) as Hpos.
    assert (H1 : 1 = m * (2 * 2 ^ (e - k - 1))) by nia.
    lia.
Qed.

(** ** [isPo2] *)

Lemma isPo2_loop_mono (fuel : nat) :
  forall n m fuel', isPo2_loop fuel n = Some m -> (fuel <= fuel')%nat ->
                    isPo2_loop fuel' n = Some m.
Proof.
  induction fuel as [| fuel IH]; intros n m fuel' H Hle; simpl in H.
  - destruct (n mod 2 =? 0) eqn:E; [discriminate |].
    destruct fuel'; simpl; rewrite E; exact H.
  - destruct fuel' as [| fuel']; [lia |]. simpl.
    destruct (n mod 2 =? 0); [| exact H].
    apply IH; [exact H | lia].
Qed.

Lemma isPo2_mono (fuel fuel' : nat) (n : Z) (b : bool) :
  isPo2 fuel n = Some b -> (fuel <= fuel')%nat -> isPo2 fuel' n = Some b.
Proof.
  unfold isPo2. intros H Hle.
  destruct (isPo2_loop fuel n) as [m |] eqn:E; [| discriminate].
  rewrite (isPo2_loop_mono fuel n m fuel' E Hle). exact H.
Qed.

Lemma isPo2_deterministic (f1 f2 : nat) (n : Z) (b1 b2 : bool) :
  isPo2 f1 n = Some b1 -> isPo2 f2 n = Some b2 -> b1 = b2.
Proof.
  intros H1 H2.
  apply isPo2_mono with (fuel' := Nat.max f1 f2) in H1; [| lia].
  apply isPo2_mono with (fuel' := Nat.max f1 f2) in H2; [| lia].
  congruence.
Qed.

(** The loop strips the factors two: it leaves the odd part of [n]. *)
Lemma isPo2_loop_odd_part (fuel : nat) :
  forall n, 1 <= n <= 2 ^ Z.of_nat fuel ->
            exists m e, isPo2_loop fuel n = Some m /\ 0 <= e /\
                        n = m * 2 ^ e /\ Z.even m = false.
Proof.
  induction fuel as [| fuel IH]; intros n Hn.
  - simpl in Hn. assert (n = 1) by lia. subst n.
    exists 1, 0. simpl. repeat split; lia.
  - simpl isPo2_loop. rewrite mod2_eqb_even.
    destruct (Z.even n) eqn:E.
    + pose proof (even_double_half n E) as Hh.
      rewrite Nat2Z.inj_succ, <- Z.add_1_r, pow2_succ in Hn by lia.
      destruct (IH (n / 2)) as (m & e & Hl & He & Hm & Hodd); [lia |].
      exists m, (e + 1). repeat split; try assumption; try lia.
      rewrite pow2_succ by lia. lia.
    + exists n, 0. repeat split; try lia. exact E.
Qed.

Lemma isPo2_loop_zero (fuel : nat) : isPo2_loop fuel 0 = None.
Proof.
  induction fuel as [| fuel IH]; simpl; [reflexivity | exact IH].
Qed.

Lemma Z_le_pow2_self (n : Z) : 0 <= n -> n <= 2 ^ n.
Proof.
  intros H. pose proof (Z.pow_gt_lin_r 2 n). lia.
Qed.

(** [isPo2] returns on every positive integer, and answers the question. *)
Lemma isPo2_decides (n : Z) :
  1 <= n ->
  exists fuel b, isPo2 fuel n = Some b /\ (b = true <-> is_power_of_two n).
Proof.
  intros Hn.
  destruct (isPo2_loop_odd_part (Z.to_nat n) n) as (m & e & Hl & He & Hm & Hodd).
  { rewrite Z2Nat.id by lia. split; [lia | apply Z_le_pow2_self; lia]. }
  exists (Z.to_nat n), (m =? 1). unfold isPo2. rewrite Hl. split; [reflexivity |].
  rewrite Z.eqb_eq. split.
  - intros ->. exists e. split; [exact He | lia].
  - intros (k & Hk & Hpow). apply (odd_factor_of_pow2 m e k); congruence.
Qed.

(** ** Walks and first hits *)

Section Walks.

Variable f : Z -> Z.

Lemma iterate_succ_r (k : nat) :
  forall n, iterate f (S k) n = f (iterate f k n).
Proof.
  induction k as [| k IH]; intros n; [reflexivity |].
  change (iterate f (S (S k)) n) with (iterate f (S k) (f n)).
  rewrite IH. reflexivity.
Qed.

Lemma iterate_add (i j : nat) :
  forall n, iterate f (i + j) n = iterate f j (iterate f i n).
Proof.
  induction i as [| i IH]; intros n; [reflexivity |].
  simpl. apply IH.
Qed.

Lemma first_hit_zero (P : Z -> Prop) (n : Z) : P n -> first_hit P f 0 n.
Proof.
  intros H. split; [exact H | intros i Hi; lia].
Qed.

Lemma first_hit_succ (P : Z -> Prop) (k : nat) (n : Z) :
  ~ P n -> first_hit P f k (f n) -> first_hit P f (S k) n.
Proof.
  intros Hn [Hk Hlt]. split; [exact Hk |].
  intros [| i] Hi; [exact Hn |]. simpl. apply Hlt. lia.
Qed.

Lemma first_hit_tail (P : Z -> Prop) (k : nat) (n : Z) :
  first_hit P f (S k) n -> ~ P n /\ first_hit P f k (f n).
Proof.
  intros [Hk Hlt]. split.
  - apply (Hlt 0%nat). lia.
  - split; [exact Hk |]. intros i Hi. apply (Hlt (S i)). lia.
Qed.

Lemma first_hit_now (P : Z -> Prop) (k : nat) (n : Z) :
  first_hit P f k n -> P n -> k = 0%nat.
Proof.
  intros [_ Hlt] Hn. destruct k as [| k]; [reflexivity |].
  exfalso. apply (Hlt 0%nat); [lia | exact Hn].
Qed.

Lemma first_hit_unique (P : Z -> Prop) (j k : nat) (n : Z) :
  first_hit P f j n -> first_hit P f k n -> j = k.
Proof.
  intros [Hj Hltj] [Hk Hltk].
  destruct (Nat.lt_trichotomy j k) as [H | [H | H]]; [| exact H |].
  - exfalso. exact (Hltk j H Hj).
  - exfalso. exact (Hltj k H Hk).
Qed.

(** A walk that hits a decidable [P] has a first hit. *)
Lemma first_hit_exists (P : Z -> Prop) :
  (forall x, P x \/ ~ P x) ->
  forall k n, P (iterate f k n) -> exists j, (j <= k)%nat /\ first_hit P f j n.
Proof.
  intros Hdec. induction k as [| k IH]; intros n Hk.
  - exists 0%nat. split; [lia | apply first_hit_zero; exact Hk].
  - destruct (Hdec n) as [Hn | Hn].
    + exists 0%nat. split; [lia | apply first_hit_zero; exact Hn].
    + destruct (IH (f n) Hk) as (j & Hj & Hfirst).
      exists (S j). split; [lia | apply first_hit_succ; assumption].
Qed.

(** Within a bound, either there is a first hit or there is no hit. *)
Lemma first_hit_within (P : Z -> Prop) :
  (forall x, P x \/ ~ P x) ->
  forall bound n,
    (exists j, (j <= bound)%nat /\ first_hit P f j n) \/
    (forall i, (i <= bound)%nat -> ~ P (iterate f i n)).
Proof.
  intros Hdec. induction bound as [| bound IH]; intros n.
  - destruct (Hdec n) as [Hn | Hn].
    + left. exists 0%nat. split; [lia | apply first_hit_zero; exact Hn].
    + right. intros i Hi. replace i with 0%nat by lia. exact Hn.
  - destruct (Hdec n) as [Hn | Hn].
    + left. exists 0%nat. split; [lia | apply first_hit_zero; exact Hn].
    + destruct (IH (f n)) as [(j & Hj & Hfirst) | Hnone].
      * left. exists (S j). split; [lia | apply first_hit_succ; assumption].
      * right. intros [| i] Hi; [exact Hn |]. simpl. apply Hnone. lia.
Qed.

Lemma visited_after_length (k : nat) (n : Z) :
  length (visited_after f k n) = k.
Proof.
  unfold visited_after. rewrite length_map, length_seq. reflexivity.
Qed.

Lemma visited_after_succ (k : nat) (n : Z) :
  visited_after f (S k) n = f n :: visited_after f k (f n).
Proof.
  unfold visited_after. simpl. f_equal.
  rewrite <- seq_shift, map_map. reflexivity.
Qed.

Lemma visited_after_snoc (k : nat) (n : Z) :
  visited_after f (S k) n = visited_after f k n ++ [iterate f (S k) n].
Proof.
  unfold visited_after. rewrite seq_S, map_app. reflexivity.
Qed.

Lemma in_visited_after (k : nat) (n x : Z) :
  In x (visited_after f k n) <->
  exists i, (1 <= i <= k)%nat /\ x = iterate f i n.
Proof.
  unfold visited_after. rewrite in_map_iff. split.
  - intros (i & Hi & Hin). apply in_seq in Hin. exists i. split; [lia | congruence].
  - intros (i & Hi & Hx). exists i. split; [congruence | apply in_seq; lia].
Qed.

(** The walk from [n], written as a list, follows the step function. *)
Lemma follows_visited (R : Z -> Z -> Prop) :
  (forall x, R x (f x)) ->
  forall k n, follows R (n :: visited_after f k n).
Proof.
  intros HR. induction k as [| k IH]; intros n.
  - exact I.
  - rewrite visited_after_succ. split; [apply HR | apply IH].
Qed.

Hypothesis f_positive : forall n, 1 <= n -> 1 <= f n.

Lemma iterate_positive (k : nat) : forall n, 1 <= n -> 1 <= iterate f k n.
Proof.
  induction k as [| k IH]; intros n Hn; [exact Hn |].
  simpl. apply IH, f_positive, Hn.
Qed.

(** The loop of a generator returns the values visited up to the first
    [1], whenever the fuel covers the walk. *)
Lemma walk_loop_first_one (k : nat) :
  forall n fuel, 1 <= n -> first_hit (eq 1) f k n -> (k <= fuel)%nat ->
                 walk_loop f fuel n = Some (visited_after f k n).
Proof.
  induction k as [| k IH]; intros n fuel Hn Hfirst Hfuel.
  - destruct Hfirst as [H1 _]. simpl in H1. subst n.
    destruct fuel; reflexivity.
  - apply first_hit_tail in Hfirst. destruct Hfirst as [Hne Hfirst].
    destruct fuel as [| fuel]; [lia |]. simpl.
    assert (Hgt : (n >? 1) = true) by (apply Z.gtb_lt; lia).
    rewrite Hgt, (IH (f n) fuel) by (auto; lia).
    rewrite visited_after_succ. reflexivity.
Qed.

(** The list [n :: visited_after f k n] of a walk that first hits [1] at
    step [k] has the shape of a trajectory. *)
Lemma first_one_shape (R : Z -> Z -> Prop) (k : nat) (n : Z) :
  (forall x, R x (f x)) ->
  first_hit (eq 1) f k n ->
  trajectory_shape R n (n :: visited_after f k n).
Proof.
  intros HR [Hk Hlt]. split; [reflexivity |].
  split; [apply follows_visited; exact HR |].
  destruct k as [| k].
  - exists []. simpl in Hk. subst n. split; [reflexivity | intros []].
  - exists (n :: visited_after f k n). split.
    + rewrite visited_after_snoc, <- Hk. reflexivity.
    + intros [H | H].
      * apply (Hlt 0%nat); [lia | symmetry; exact H].
      * apply in_visited_after in H. destruct H as (i & Hi & Hx).
        apply (Hlt i); [lia | exact Hx].
Qed.

End Walks.

(** ** The two step functions *)

Lemma colgen_step_eq (n : Z) :
  (if n mod 2 =? 0 then n / 2 else n * 3 + 1) = collatz_step n.
Proof.
  unfold collatz_step. rewrite mod2_eqb_even.
  destruct (Z.even n); [reflexivity | lia].
Qed.

Lemma redcolgen_step_eq (n : Z) :
  (if n mod 2 =? 0 then n / 2 else (n * 3 + 1) / 2) = reduced_step n.
Proof.
  unfold reduced_step. rewrite mod2_eqb_even.
  destruct (Z.even n); [reflexivity | f_equal; lia].
Qed.

Lemma reduced_step_odd (n : Z) :
  Z.even n = false -> (3 * n + 1) / 2 = 3 * (n / 2) + 2.
Proof.
  intros H. pose proof (odd_double_half n H) as Hn.
  replace (3 * n + 1) with ((3 * (n / 2) + 2) * 2) by lia.
  apply Z.div_mul. lia.
Qed.

Lemma collatz_step_positive (n : Z) : 1 <= n -> 1 <= collatz_step n.
Proof.
  intros Hn. unfold collatz_step. destruct (Z.even n) eqn:E; [| lia].
  pose proof (even_double_half n E). lia.
Qed.

Lemma reduced_step_positive (n : Z) : 1 <= n -> 1 <= reduced_step n.
Proof.
  intros Hn. unfold reduced_step. destruct (Z.even n) eqn:E.
  - pose proof (even_double_half n E). lia.
  - rewrite (reduced_step_odd n E). pose proof (odd_double_half n E). lia.
Qed.

Lemma standard_rule_step (x : Z) : standard_rule x (collatz_step x).
Proof.
  unfold standard_rule, collatz_step.
  destruct (Z.even x); split; intros H; congruence.
Qed.

Lemma reduced_rule_step (x : Z) : reduced_rule x (reduced_step x).
Proof.
  unfold reduced_rule, reduced_step.
  destruct (Z.even x); split; intros H; congruence.
Qed.

(** An odd step of the Collatz map is followed by a halving: two standard
    steps from an odd value are one reduced step. *)
Lemma collatz_step_twice_odd (n : Z) :
  Z.even n = false -> collatz_step (collatz_step n) = reduced_step n.
Proof.
  intros E. unfold reduced_step, collatz_step at 2. rewrite E.
  unfold collatz_step.
  replace (Z.even (3 * n + 1)) with true; [reflexivity |].
  pose proof (odd_double_half n E) as Hn.
  replace (3 * n + 1) with (2 * (3 * (n / 2) + 2)) by lia.
  rewrite Z.even_mul. reflexivity.
Qed.

(** A standard walk that reaches [1] contains a reduced walk that does. *)
Lemma reduced_walk_reaches_one (k : nat) :
  forall n, 1 <= n -> iterate collatz_step k n = 1 ->
            exists j, (j <= k)%nat /\ iterate reduced_step j n = 1.
Proof.
  induction k as [k IH] using lt_wf_ind. intros n Hn Hk.
  destruct (Z.eq_dec n 1) as [H1 | H1].
  { exists 0%nat. split; [lia | exact H1]. }
  destruct k as [| k]; [simpl in Hk; contradiction |].
  destruct (Z.even n) eqn:E.
  - assert (Hs : collatz_step n = reduced_step n)
      by (unfold collatz_step, reduced_step; rewrite E; reflexivity).
    simpl in Hk. rewrite Hs in Hk.
    destruct (IH k (Nat.lt_succ_diag_r k) (reduced_step n)) as (j & Hj & Hr);
      [apply reduced_step_positive; exact Hn | exact Hk |].
    exists (S j). split; [lia | exact Hr].
  - destruct k as [| k].
    { simpl in Hk. unfold collatz_step in Hk. rewrite E in Hk. lia. }
    simpl in Hk. rewrite (collatz_step_twice_odd n E) in Hk.
    destruct (IH k) with (n := reduced_step n) as (j & Hj & Hr);
      [lia | apply reduced_step_positive; exact Hn | exact Hk |].
    exists (S j). split; [lia | exact Hr].
Qed.

Lemma eq_one_decidable (x : Z) : 1 = x \/ 1 <> x.
Proof.
  destruct (Z.eq_dec 1 x); [left | right]; assumption.
Qed.

(** ** The generators *)

Lemma colgen_loop_walk (fuel : nat) :
  forall n, colgen_loop fuel n = walk_loop collatz_step fuel n.
Proof.
  induction fuel as [| fuel IH]; intros n; [reflexivity |].
  simpl. rewrite colgen_step_eq, IH. reflexivity.
Qed.

Lemma redcolgen_loop_walk (fuel : nat) :
  forall n, redcolgen_loop fuel n = walk_loop reduced_step fuel n.
Proof.
  induction fuel as [| fuel IH]; intros n; [reflexivity |].
  simpl. rewrite redcolgen_step_eq, IH. reflexivity.
Qed.

(** [C] returns the walk up to its first [1]. *)
Lemma C_returns (k fuel : nat) (n : Z) :
  1 <= n -> first_hit (eq 1) collatz_step k n -> (k <= fuel)%nat ->
  C fuel n = Some (n :: visited_after collatz_step k n).
Proof.
  intros Hn Hfirst Hfuel. unfold C, colgen.
  rewrite colgen_loop_walk.
  rewrite (walk_loop_first_one collatz_step collatz_step_positive k)
    by assumption.
  reflexivity.
Qed.

Lemma T_returns (k fuel : nat) (n : Z) :
  1 <= n -> first_hit (eq 1) reduced_step k n -> (k <= fuel)%nat ->
  T fuel n = Some (n :: visited_after reduced_step k n).
Proof.
  intros Hn Hfirst Hfuel. unfold T, redcolgen.
  rewrite redcolgen_loop_walk.
  rewrite (walk_loop_first_one reduced_step reduced_step_positive k)
    by assumption.
  reflexivity.
Qed.

(** Whatever the fuel, a generator that returns has returned this list. *)
Lemma walk_loop_mono (f : Z -> Z) (fuel : nat) :
  forall n l fuel', walk_loop f fuel n = Some l -> (fuel <= fuel')%nat ->
                    walk_loop f fuel' n = Some l.
Proof.
  induction fuel as [| fuel IH]; intros n l fuel' H Hle; simpl in H.
  - destruct (n >? 1) eqn:E; [discriminate |].
    destruct fuel'; simpl; rewrite E; exact H.
  - destruct fuel' as [| fuel']; [lia |]. simpl.
    destruct (n >? 1); [| exact H].
    destruct (walk_loop f fuel (f n)) as [t |] eqn:Et; [| discriminate].
    rewrite (IH (f n) t fuel' Et) by lia. exact H.
Qed.

Lemma C_deterministic (f1 f2 : nat) (n : Z) (l1 l2 : list Z) :
  C f1 n = Some l1 -> C f2 n = Some l2 -> l1 = l2.
Proof.
  unfold C, colgen. rewrite !colgen_loop_walk. intros H1 H2.
  destruct (walk_loop collatz_step f1 n) as [t1 |] eqn:E1; [| discriminate].
  destruct (walk_loop collatz_step f2 n) as [t2 |] eqn:E2; [| discriminate].
  apply walk_loop_mono with (fuel' := Nat.max f1 f2) in E1; [| lia].
  apply walk_loop_mono with (fuel' := Nat.max f1 f2) in E2; [| lia].
  simpl in H1, H2. congruence.
Qed.

(** C1: for every [n >= 1] whose trajectory reaches [1], [C] and [T] return
    (on every fuel that covers the walk) lists with the shape of a
    trajectory: the first element is [n]; consecutive elements follow
    [next = n/2] for an even [n] and [next = 3n+1] (standard) or
    [next = (3n+1)/2] (reduced) for an odd one; the last element is [1] and
    no earlier element is [1]. *)
Theorem trajectories_have_the_stated_shape (n : Z) :
  1 <= n -> reaches_one n ->
  exists fuel l lr,
    (forall fuel', (fuel <= fuel')%nat ->
                   C fuel' n = Some l /\ T fuel' n = Some lr) /\
    trajectory_shape standard_rule n l /\
    trajectory_shape reduced_rule n lr.
Proof.
  intros Hn [k Hk].
  destruct (reduced_walk_reaches_one k n Hn Hk) as (kr & _ & Hkr).
  destruct (first_hit_exists collatz_step (eq 1) eq_one_decidable k n)
    as (j & _ & Hj); [symmetry; exact Hk |].
  destruct (first_hit_exists reduced_step (eq 1) eq_one_decidable kr n)
    as (jr & _ & Hjr); [symmetry; exact Hkr |].
  exists (Nat.max j jr), (n :: visited_after collatz_step j n),
    (n :: visited_after reduced_step jr n).
  split; [| split].
  - intros fuel' Hfuel. split.
    + apply C_returns; [exact Hn | exact Hj | lia].
    + apply T_returns; [exact Hn | exact Hjr | lia].
  - apply first_one_shape; [apply standard_rule_step | exact Hj].
  - apply first_one_shape; [apply reduced_rule_step | exact Hjr].
Qed.

Lemma trajectories_have_the_stated_shape_witness :
  exists fuel l lr,
    (forall fuel', (fuel <= fuel')%nat ->
                   C fuel' 10 = Some l /\ T fuel' 10 = Some lr) /\
    trajectory_shape standard_rule 10 l /\
    trajectory_shape reduced_rule 10 lr.
Proof.
  apply (trajectories_have_the_stated_shape 10).
  - lia.
  - exists 6%nat. reflexivity.
Defined.

(** C7: for every [n >= 1] whose trajectory reaches [1] after [k] steps
    (and not before), [C] returns a list of [k + 1] elements, from [n]
    through [1], and [tst] returns the length of that list; [tst(1)] is
    [1]. *)
Theorem tst_is_the_length_of_C (n : Z) :
  1 <= n -> reaches_one n ->
  exists fuel l k,
    first_hit (eq 1) collatz_step k n /\
    (forall fuel', (fuel <= fuel')%nat ->
                   C fuel' n = Some l /\
                   tst fuel' n = Some (Z.of_nat (length l))) /\
    length l = S k /\
    hd_error l = Some n /\
    last l 0 = 1 /\
    (forall fuel', tst fuel' 1 = Some 1).
Proof.
  intros Hn [k Hk].
  destruct (first_hit_exists collatz_step (eq 1) eq_one_decidable k n)
    as (j & _ & Hj); [symmetry; exact Hk |].
  exists j, (n :: visited_after collatz_step j n), j.
  split; [exact Hj |]. split; [| split; [| split; [| split]]].
  - intros fuel' Hfuel.
    pose proof (C_returns j fuel' n Hn Hj Hfuel) as HC.
    split; [exact HC |]. unfold tst. unfold C in HC. rewrite HC. reflexivity.
  - simpl. rewrite visited_after_length. reflexivity.
  - reflexivity.
  - destruct Hj as [H1 _]. destruct j as [| j]; [simpl in *; congruence |].
    rewrite visited_after_snoc, app_comm_cons, last_last. congruence.
  - intros [| fuel']; reflexivity.
Qed.

Lemma tst_is_the_length_of_C_witness :
  exists fuel l k,
    first_hit (eq 1) collatz_step k 10 /\
    (forall fuel', (fuel <= fuel')%nat ->
                   C fuel' 10 = Some l /\
                   tst fuel' 10 = Some (Z.of_nat (length l))) /\
    length l = S k /\
    hd_error l = Some 10 /\
    last l 0 = 1 /\
    (forall fuel', tst fuel' 1 = Some 1).
Proof.
  apply (tst_is_the_length_of_C 10).
  - lia.
  - exists 6%nat. reflexivity.
Defined.

(** ** [isPo2]: termination and result *)

(** Outside the domain of the specification: on a negative integer the
    floor division of Python ends the loop at an odd negative value, and
    [isPo2] returns [False].  Zero is the only integer on which it does not
    return. *)
Lemma isPo2_loop_negative (fuel : nat) :
  forall n, - 2 ^ Z.of_nat fuel <= n <= -1 ->
            exists m, isPo2_loop fuel n = Some m /\ m <= -1.
Proof.
  induction fuel as [| fuel IH]; intros n Hn.
  - simpl in Hn. assert (n = -1) by lia. subst n.
    exists (-1). split; [reflexivity | lia].
  - simpl isPo2_loop. rewrite mod2_eqb_even.
    destruct (Z.even n) eqn:E.
    + pose proof (even_double_half n E) as Hh.
      rewrite Nat2Z.inj_succ, <- Z.add_1_r, pow2_succ in Hn by lia.
      apply IH. lia.
    + exists n. split; [reflexivity | lia].
Qed.

Lemma isPo2_negative (n : Z) :
  n <= -1 -> exists fuel, isPo2 fuel n = Some false.
Proof.
  intros Hn. exists (Z.to_nat (- n)).
  destruct (isPo2_loop_negative (Z.to_nat (- n)) n) as (m & Hl & Hm).
  { rewrite Z2Nat.id by lia. pose proof (Z_le_pow2_self (- n)). lia. }
  unfold isPo2. rewrite Hl.
  replace (m =? 1) with false by (symmetry; apply Z.eqb_neq; lia).
  reflexivity.
Qed.

(** C10, as the code has it: for every integer [n >= 1], [isPo2] returns
    (on every fuel from some bound on) and returns [true] exactly when
    [n = 2^k] for some [k >= 0].  Its halving loop ends on every integer
    but zero: [isPo2] returns on some fuel if and only if [n <> 0], it
    returns [False] on every negative [n], and on [0] it returns on no
    fuel. *)
Theorem isPo2_terminates_and_decides (n : Z) :
  (1 <= n ->
   exists fuel b,
     (forall fuel', (fuel <= fuel')%nat -> isPo2 fuel' n = Some b) /\
     (b = true <-> is_power_of_two n)) /\
  ((exists fuel b, isPo2 fuel n = Some b) <-> n <> 0) /\
  (n <= -1 ->
   exists fuel, forall fuel', (fuel <= fuel')%nat ->
                              isPo2 fuel' n = Some false) /\
  (forall fuel, isPo2 fuel 0 = None).
Proof.
  assert (Hzero : forall fuel, isPo2 fuel 0 = None).
  { intros fuel. unfold isPo2. rewrite isPo2_loop_zero. reflexivity. }
  assert (Hpos : 1 <= n ->
                 exists fuel b,
                   (forall fuel', (fuel <= fuel')%nat ->
                                  isPo2 fuel' n = Some b) /\
                   (b = true <-> is_power_of_two n)).
  { intros Hn. destruct (isPo2_decides n Hn) as (fuel & b & Hb & Hiff).
    exists fuel, b. split; [| exact Hiff].
    intros fuel' Hle. exact (isPo2_mono fuel fuel' n b Hb Hle). }
  assert (Hneg : n <= -1 ->
                 exists fuel, forall fuel', (fuel <= fuel')%nat ->
                                            isPo2 fuel' n = Some false).
  { intros Hn. destruct (isPo2_negative n Hn) as [fuel H].
    exists fuel. intros fuel' Hle.
    exact (isPo2_mono fuel fuel' n false H Hle). }
  split; [exact Hpos |]. split; [| split; [exact Hneg | exact Hzero]].
  split.
  - intros (fuel & b & Hb) ->. rewrite Hzero in Hb. discriminate.
  - intros Hne. destruct (Z_le_gt_dec 1 n) as [Hn | Hn].
    + destruct (Hpos Hn) as (fuel & b & Hb & _).
      exists fuel, b. apply Hb. lia.
    + destruct Hneg as [fuel H]; [lia |].
      exists fuel, false. apply H. lia.
Qed.

Lemma isPo2_terminates_and_decides_witness :
  exists fuel b,
    (forall fuel', (fuel <= fuel')%nat -> isPo2 fuel' 16 = Some b) /\
    (b = true <-> is_power_of_two 16).
Proof.
  apply (proj1 (isPo2_terminates_and_decides 16)). lia.
Defined.

(** C10, as the specification words it, fails at [n = -2]: the loop is
    said to be well-founded only under [n >= 1], yet [isPo2(-2)] halves
    once to the odd [-1] and returns [False]. *)
Lemma isPo2_of_minus_2_returns :
  isPo2 1 (-2) = Some false /\
  ~ ((exists fuel b, isPo2 fuel (-2) = Some b) -> 1 <= -2).
Proof.
  split; [reflexivity |].
  intros H. assert (Hle : 1 <= -2).
  { apply H. exists 1%nat, false. reflexivity. }
  lia.
Qed.

(** ** [uptree] *)

Lemma uptree_cases (n : Z) :
  (n mod 6 <> 4 /\ uptree n = [2 * n]) \/
  (n mod 6 = 4 /\ uptree n = [2 * n; (n - 1) / 3]).
Proof.
  unfold uptree. simpl. rewrite (Z.mul_comm n 2).
  destruct (n mod 6 =? 4) eqn:E.
  - right. apply Z.eqb_eq in E. split; [exact E | reflexivity].
  - left. apply Z.eqb_neq in E. split; [exact E | reflexivity].
Qed.

(** For [n = 6q + 4] the second predecessor is the odd number [2q + 1]. *)
Lemma uptree_second_branch (n : Z) :
  n mod 6 = 4 -> exists q, n = 6 * q + 4 /\ (n - 1) / 3 = 2 * q + 1.
Proof.
  intros H. exists (n / 6).
  pose proof (Z.div_mod n 6) as Hdm.
  assert (Hn : n = 6 * (n / 6) + 4) by lia.
  split; [exact Hn |].
  replace (n - 1) with ((2 * (n / 6) + 1) * 3) by lia.
  apply Z.div_mul. lia.
Qed.

(** C3: for every integer [n >= 1], [uptree n] is [[2n]] when
    [n mod 6 <> 4] and [[2n, (n-1)/3]] when [n mod 6 = 4], where [(n-1)/3]
    is then an exact quotient and positive; [2n] is always the first
    element, the list has two elements exactly when [n mod 6 = 4], and it
    has never fewer than one or more than two. *)
Theorem uptree_is_one_or_two_predecessors (n : Z) :
  1 <= n ->
  (n mod 6 <> 4 -> uptree n = [2 * n]) /\
  (n mod 6 = 4 ->
   uptree n = [2 * n; (n - 1) / 3] /\
   1 <= (n - 1) / 3 /\ 3 * ((n - 1) / 3) = n - 1) /\
  hd_error (uptree n) = Some (2 * n) /\
  (length (uptree n) = 2%nat <-> n mod 6 = 4) /\
  (1 <= length (uptree n) <= 2)%nat.
Proof.
  intros Hn.
  destruct (uptree_cases n) as [[Hm Hu] | [Hm Hu]]; rewrite Hu;
    cbn [hd_error length].
  - split; [reflexivity |]. split; [intros Hm'; contradiction |].
    split; [reflexivity |]. split; [| lia].
    split; [discriminate | intros Hm'; contradiction].
  - destruct (uptree_second_branch n Hm) as (q & Hq & Hdiv).
    split; [intros Hm'; contradiction |].
    split; [intros _; rewrite Hdiv; split; [reflexivity | split; lia] |].
    split; [reflexivity |]. split; [| lia].
    split; [intros _; exact Hm | reflexivity].
Qed.

Lemma uptree_is_one_or_two_predecessors_witness :
  (10 mod 6 <> 4 -> uptree 10 = [2 * 10]) /\
  (10 mod 6 = 4 ->
   uptree 10 = [2 * 10; (10 - 1) / 3] /\
   1 <= (10 - 1) / 3 /\ 3 * ((10 - 1) / 3) = 10 - 1) /\
  hd_error (uptree 10) = Some (2 * 10) /\
  (length (uptree 10) = 2%nat <-> 10 mod 6 = 4) /\
  (1 <= length (uptree 10) <= 2)%nat.
Proof.
  apply (uptree_is_one_or_two_predecessors 10). lia.
Defined.

(** C9: for every [n >= 1], one step of the Collatz map (halve an even
    value, [3p+1] for an odd one) takes every element of [uptree n] back to
    [n]: the first element of [uptree n] is [2n], which is even and halves
    to [n]; when [n mod 6 = 4] the second element of [uptree n] is
    [(n-1)/3], which is odd and [3 * ((n-1)/3) + 1 = n]; otherwise there is
    no second element. *)
Theorem uptree_round_trip (n : Z) :
  1 <= n ->
  (forall p, In p (uptree n) -> collatz_step p = n) /\
  (hd_error (uptree n) = Some (2 * n) /\
   Z.even (2 * n) = true /\ (2 * n) / 2 = n /\
   collatz_step (2 * n) = n) /\
  (n mod 6 = 4 ->
   nth_error (uptree n) 1 = Some ((n - 1) / 3) /\
   Z.even ((n - 1) / 3) = false /\ 3 * ((n - 1) / 3) + 1 = n /\
   collatz_step ((n - 1) / 3) = n) /\
  (n mod 6 <> 4 -> nth_error (uptree n) 1 = None).
Proof.
  intros Hn.
  assert (Hfirst : Z.even (2 * n) = true /\ (2 * n) / 2 = n).
  { split.
    - rewrite Z.even_mul. reflexivity.
    - rewrite Z.mul_comm. apply Z.div_mul. lia. }
  assert (Hsecond : n mod 6 = 4 ->
                    Z.even ((n - 1) / 3) = false /\ 3 * ((n - 1) / 3) + 1 = n).
  { intros Hm. destruct (uptree_second_branch n Hm) as (q & Hq & Hdiv).
    rewrite Hdiv. split; [| lia].
    rewrite Z.even_add, Z.even_mul. reflexivity. }
  assert (Hstep1 : collatz_step (2 * n) = n).
  { unfold collatz_step. destruct Hfirst as [-> ->]. reflexivity. }
  assert (Hstep2 : n mod 6 = 4 -> collatz_step ((n - 1) / 3) = n).
  { intros Hm. unfold collatz_step.
    destruct (Hsecond Hm) as [-> Heq]. exact Heq. }
  split; [| split; [| split]].
  - intros p Hp.
    destruct (uptree_cases n) as [[Hm Hu] | [Hm Hu]]; rewrite Hu in Hp;
      cbn [In] in Hp.
    + destruct Hp as [<- | []]. exact Hstep1.
    + destruct Hp as [<- | [<- | []]]; [exact Hstep1 | exact (Hstep2 Hm)].
  - destruct Hfirst as [Hev Hhalf].
    split; [| split; [exact Hev | split; [exact Hhalf | exact Hstep1]]].
    destruct (uptree_cases n) as [[_ ->] | [_ ->]]; reflexivity.
  - intros Hm. destruct (Hsecond Hm) as [Hodd Heq].
    split; [| split; [exact Hodd | split; [exact Heq | exact (Hstep2 Hm)]]].
    destruct (uptree_cases n) as [[Hne _] | [_ ->]];
      [contradiction | reflexivity].
  - intros Hne.
    destruct (uptree_cases n) as [[_ ->] | [Hm _]];
      [reflexivity | contradiction].
Qed.

Lemma uptree_round_trip_witness :
  (forall p, In p (uptree 4) -> collatz_step p = 4) /\
  (hd_error (uptree 4) = Some (2 * 4) /\
   Z.even (2 * 4) = true /\ (2 * 4) / 2 = 4 /\
   collatz_step (2 * 4) = 4) /\
  (4 mod 6 = 4 ->
   nth_error (uptree 4) 1 = Some ((4 - 1) / 3) /\
   Z.even ((4 - 1) / 3) = false /\ 3 * ((4 - 1) / 3) + 1 = 4 /\
   collatz_step ((4 - 1) / 3) = 4) /\
  (4 mod 6 <> 4 -> nth_error (uptree 4) 1 = None).
Proof.
  apply (uptree_round_trip 4). lia.
Defined.

(** ** [sorted] *)

Lemma insert_sorted_permutation (x : Z) (l : list Z) :
  Permutation (insert_sorted x l) (x :: l).
Proof.
  induction l as [| y l IH]; simpl; [apply Permutation_refl |].
  destruct (x <=? y); [apply Permutation_refl |].
  apply perm_trans with (y :: x :: l); [| apply perm_swap].
  apply perm_skip, IH.
Qed.

Lemma insert_sorted_hdrel (a x : Z) (l : list Z) :
  a <= x -> HdRel Z.le a l -> HdRel Z.le a (insert_sorted x l).
Proof.
  intros Hax Hl. destruct l as [| y l]; simpl; [constructor; exact Hax |].
  destruct (x <=? y); constructor; [exact Hax |].
  inversion Hl; assumption.
Qed.

Lemma insert_sorted_sorted (x : Z) (l : list Z) :
  Sorted Z.le l -> Sorted Z.le (insert_sorted x l).
Proof.
  induction l as [| y l IH]; intros Hl; simpl.
  - repeat constructor.
  - destruct (x <=? y) eqn:E.
    + constructor; [exact Hl |]. constructor. apply Z.leb_le, E.
    + apply Z.leb_gt in E. inversion Hl as [| ? ? Hl' Hhd]; subst.
      constructor; [apply IH, Hl' |].
      apply insert_sorted_hdrel; [lia | exact Hhd].
Qed.

Lemma sorted_permutation (l : list Z) : Permutation (sorted l) l.
Proof.
  induction l as [| x l IH]; simpl; [constructor |].
  apply perm_trans with (x :: sorted l);
    [apply insert_sorted_permutation | apply perm_skip, IH].
Qed.

Lemma sorted_is_sorted (l : list Z) : Sorted Z.le (sorted l).
Proof.
  induction l as [| x l IH]; simpl; [constructor |].
  apply insert_sorted_sorted, IH.
Qed.

(** An ascending list of integers is determined by its elements: any
    sorting algorithm returns what [sorted] returns. *)
Lemma ascending_unique (l1 : list Z) :
  forall l2, Sorted Z.le l1 -> Sorted Z.le l2 -> Permutation l1 l2 -> l1 = l2.
Proof.
  induction l1 as [| x l1 IH]; intros l2 H1 H2 Hp.
  - apply Permutation_nil in Hp. congruence.
  - destruct l2 as [| y l2];
      [apply Permutation_sym, Permutation_nil in Hp; discriminate |].
    apply Sorted_StronglySorted in H1; [| intros a b c; apply Z.le_trans].
    apply Sorted_StronglySorted in H2; [| intros a b c; apply Z.le_trans].
    inversion H1 as [| ? ? Hs1 Hall1]; subst.
    inversion H2 as [| ? ? Hs2 Hall2]; subst.
    assert (Hxy : x = y).
    { assert (Hx : In x (y :: l2))
        by (apply (Permutation_in _ Hp); left; reflexivity).
      assert (Hy : In y (x :: l1))
        by (apply (Permutation_in _ (Permutation_sym Hp)); left; reflexivity).
      rewrite Forall_forall in Hall1, Hall2.
      destruct Hx as [Hx | Hx]; [congruence |].
      destruct Hy as [Hy | Hy]; [congruence |].
      specialize (Hall1 y Hy). specialize (Hall2 x Hx). lia. }
    subst y. f_equal. apply IH.
    + apply StronglySorted_Sorted, Hs1.
    + apply StronglySorted_Sorted, Hs2.
    + apply Permutation_cons_inv with x, Hp.
Qed.

(** ** [Tree.tree] *)

Lemma extend_all_flat_map (branch : list Z) :
  extend_all branch = flat_map uptree branch.
Proof.
  unfold extend_all.
  assert (H : forall acc,
             fold_left (fun nextbranch numbers => nextbranch ++ uptree numbers)
               branch acc = acc ++ flat_map uptree branch).
  { induction branch as [| x branch IH]; intros acc; simpl.
    - rewrite app_nil_r. reflexivity.
    - rewrite IH, app_assoc. reflexivity. }
  apply H.
Qed.

(** The loop appends one generation per iteration, to the branches and to
    the flat list. *)
Lemma tree_loop_generations (r : Z) (count : nat) :
  forall flat g0,
    tree_loop count flat (map (generation r) (seq 0 (S g0))) =
    (flat ++ concat (map (generation r) (seq (S g0) count)),
     map (generation r) (seq 0 (S g0 + count))).
Proof.
  induction count as [| count IH]; intros flat g0.
  - simpl. rewrite app_nil_r, Nat.add_0_r. reflexivity.
  - cbn [tree_loop].
    assert (Hlast : last (map (generation r) (seq 0 (S g0))) [] =
                    generation r g0).
    { rewrite seq_S, map_app. apply last_last. }
    rewrite Hlast, extend_all_flat_map.
    change (flat_map uptree (generation r g0)) with (generation r (S g0)).
    replace (map (generation r) (seq 0 (S g0)) ++ [generation r (S g0)])
      with (map (generation r) (seq 0 (S (S g0))))
      by (rewrite (seq_S (S g0)), map_app; reflexivity).
    rewrite IH. f_equal.
    + cbn [seq map concat]. rewrite <- app_assoc. reflexivity.
    + f_equal. f_equal. lia.
Qed.

Lemma tree_returns (r d : Z) :
  tree (mkTree r d) =
  (sorted (concat (map (generation r) (seq 0 (S (Z.to_nat d))))),
   map (generation r) (seq 0 (S (Z.to_nat d)))).
Proof.
  unfold tree. cbn [root steps].
  change [[r]] with (map (generation r) (seq 0 1)).
  rewrite tree_loop_generations.
  change (seq 0 (S (Z.to_nat d))) with (0%nat :: seq 1 (Z.to_nat d)).
  reflexivity.
Qed.

(** C4: for every root [r >= 1] and depth [d >= 0], [Tree(r, d).tree()]
    returns [(flat, generations)] where [generations] has the [d + 1]
    entries [0] to [d], entry [0] is [[r]], entry [g] for [1 <= g <= d] is
    the in-order concatenation of [uptree x] over the [x] of entry [g - 1],
    and [flat] is ascending and has exactly the elements of all generations
    with their multiplicities; at depth [0] the result is [([r], [[r]])]. *)
Theorem tree_returns_sorted_flat_and_generations (r d : Z) :
  1 <= r -> 0 <= d ->
  exists flat generations,
    tree (mkTree r d) = (flat, generations) /\
    length generations = S (Z.to_nat d) /\
    nth 0 generations [] = [r] /\
    (forall g, (1 <= g <= Z.to_nat d)%nat ->
               nth g generations [] =
               concat (map uptree (nth (g - 1) generations []))) /\
    Sorted Z.le flat /\
    Permutation flat (concat generations) /\
    tree (mkTree r 0) = ([r], [[r]]).
Proof.
  intros Hr Hd. rewrite tree_returns.
  eexists. eexists. split; [reflexivity |].
  assert (Hnth : forall g, (g <= Z.to_nat d)%nat ->
                           nth g (map (generation r) (seq 0 (S (Z.to_nat d)))) [] =
                           generation r g).
  { intros g Hg.
    rewrite (nth_indep _ [] (generation r 0))
      by (rewrite length_map, length_seq; lia).
    rewrite (map_nth (generation r)), seq_nth by lia. reflexivity. }
  split; [rewrite length_map, length_seq; reflexivity |].
  split; [reflexivity |].
  split; [| split; [apply sorted_is_sorted |
                    split; [apply sorted_permutation | reflexivity]]].
  intros g Hg. rewrite !Hnth by lia.
  destruct g as [| g]; [lia |].
  replace (S g - 1)%nat with g by lia.
  rewrite <- flat_map_concat_map. reflexivity.
Qed.

Lemma tree_returns_sorted_flat_and_generations_witness :
  exists flat generations,
    tree (mkTree 5 1) = (flat, generations) /\
    length generations = S (Z.to_nat 1) /\
    nth 0 generations [] = [5] /\
    (forall g, (1 <= g <= Z.to_nat 1)%nat ->
               nth g generations [] =
               concat (map uptree (nth (g - 1) generations []))) /\
    Sorted Z.le flat /\
    Permutation flat (concat generations) /\
    tree (mkTree 5 0) = ([5], [[5]]).
Proof.
  apply (tree_returns_sorted_flat_and_generations 5 1); lia.
Defined.

(** ** The counting loop of [residue] and [completeness] *)

Lemma odd_count_nonneg (k : nat) : forall n, 0 <= odd_count k n.
Proof.
  induction k as [| k IH]; intros n; simpl; [lia |].
  specialize (IH (reduced_step n)). destruct (Z.odd n); lia.
Qed.

Lemma odd_count_le (k : nat) : forall n, odd_count k n <= Z.of_nat k.
Proof.
  induction k as [| k IH]; intros n; [simpl; lia |].
  cbn [odd_count]. specialize (IH (reduced_step n)).
  destruct (Z.odd n); lia.
Qed.

(** The loop counts the iterations of the reduced walk up to its first [1]
    in [e], and those of them that start from an odd value in [o]. *)
Lemma residue_loop_counts (j : nat) :
  forall n fuel e o,
    1 <= n -> first_hit (eq 1) reduced_step j n -> (j <= fuel)%nat ->
    residue_loop fuel n e o = Some (e + Z.of_nat j, o + odd_count j n).
Proof.
  induction j as [| j IH]; intros n fuel e o Hn Hfirst Hfuel.
  - destruct Hfirst as [H1 _]. simpl in H1. subst n.
    destruct fuel; simpl; rewrite !Z.add_0_r; reflexivity.
  - apply first_hit_tail in Hfirst. destruct Hfirst as [Hne Hfirst].
    destruct fuel as [| fuel]; [lia |].
    cbn [residue_loop odd_count].
    assert (H1 : (n =? 1) = false) by (apply Z.eqb_neq; congruence).
    rewrite H1, mod2_eqb_even, <- Z.negb_even. cbn [negb].
    pose proof (reduced_step_positive n Hn) as Hpos.
    unfold reduced_step in *. destruct (Z.even n); cbn [negb].
    + rewrite (IH (n / 2) fuel) by (auto; lia). f_equal. f_equal; lia.
    + rewrite (IH ((3 * n + 1) / 2) fuel) by (auto; lia). f_equal. f_equal; lia.
Qed.

Lemma completeness_loop_is_residue_loop (fuel : nat) :
  forall n e o, completeness_loop fuel n e o = residue_loop fuel n e o.
Proof.
  induction fuel as [| fuel IH]; intros n e o; [reflexivity |].
  simpl. rewrite !IH. reflexivity.
Qed.

(** The reduced walk to [1] takes as many steps as the standard walk has
    even values before its [1], and starts as many of them from an odd value
    as the standard walk has odd values there. *)
Lemma reduced_counts_are_standard_counts (j : nat) :
  forall n, 1 <= n -> first_hit (eq 1) reduced_step j n ->
            exists k, first_hit (eq 1) collatz_step k n /\
                      standard_even_count k n = Z.of_nat j /\
                      standard_odd_count k n = odd_count j n.
Proof.
  induction j as [| j IH]; intros n Hn Hfirst.
  - exists 0%nat. destruct Hfirst as [H1 _].
    split; [apply first_hit_zero; exact H1 | split; reflexivity].
  - apply first_hit_tail in Hfirst. destruct Hfirst as [Hne Hfirst].
    destruct (IH (reduced_step n) (reduced_step_positive n Hn) Hfirst)
      as (k & Hk & Hev & Hod).
    destruct (Z.even n) eqn:E.
    + assert (Hs : collatz_step n = reduced_step n)
        by (unfold collatz_step, reduced_step; rewrite E; reflexivity).
      exists (S k). split; [| split].
      * apply first_hit_succ; [exact Hne | rewrite Hs; exact Hk].
      * cbn [standard_even_count]. rewrite E, Hs, Hev. lia.
      * cbn [standard_odd_count odd_count].
        rewrite <- Z.negb_even, E, Hs, Hod. reflexivity.
    + pose proof (collatz_step_twice_odd n E) as Hs.
      assert (Hmid : collatz_step n = 3 * n + 1)
        by (unfold collatz_step; rewrite E; reflexivity).
      assert (Emid : Z.even (collatz_step n) = true).
      { rewrite Hmid. pose proof (odd_double_half n E) as Hh.
        replace (3 * n + 1) with (2 * (3 * (n / 2) + 2)) by lia.
        rewrite Z.even_mul. reflexivity. }
      exists (S (S k)). split; [| split].
      * apply first_hit_succ; [exact Hne |].
        apply first_hit_succ; [rewrite Hmid; lia | rewrite Hs; exact Hk].
      * cbn [standard_even_count]. rewrite E, Emid, Hs, Hev. lia.
      * cbn [standard_odd_count odd_count].
        rewrite <- !Z.negb_even, E, Emid, Hs, Hod. cbn [negb]. lia.
Qed.

Lemma reduced_first_one (n : Z) :
  (exists k, iterate reduced_step k n = 1) ->
  exists j, first_hit (eq 1) reduced_step j n.
Proof.
  intros [k Hk].
  destruct (first_hit_exists reduced_step (eq 1) eq_one_decidable k n)
    as (j & _ & Hj); [symmetry; exact Hk |].
  exists j. exact Hj.
Qed.

(** C6: for every [n >= 1] whose reduced walk reaches [1], [residue]
    returns [2^E / (3^O * n)], where [E] is the number of iterations of the
    reduced walk from [n] to its first [1] and [O] the number of those that
    start from an odd value; [residue(1)] is [1]. *)
Theorem residue_is_pow2_E_over_pow3_O_times_n (n : Z) :
  1 <= n -> (exists k, iterate reduced_step k n = 1) ->
  exists fuel E O,
    first_hit (eq 1) reduced_step E n /\
    O = odd_count E n /\
    (forall fuel', (fuel <= fuel')%nat ->
                   residue fuel' n =
                   Some (Returned (inject_Z (2 ^ Z.of_nat E) /
                                   inject_Z (3 ^ O * n))%Q)) /\
    (forall fuel', residue fuel' 1 = Some (Returned 1%Q)).
Proof.
  intros Hn Hreach. destruct (reduced_first_one n Hreach) as [j Hj].
  exists j, j, (odd_count j n).
  split; [exact Hj |]. split; [reflexivity |]. split.
  - intros fuel' Hfuel. unfold residue.
    rewrite (residue_loop_counts j n fuel' 0 0 Hn Hj Hfuel).
    rewrite !Z.add_0_l. unfold truediv.
    assert (H3 : 0 < 3 ^ odd_count j n)
      by (apply Z.pow_pos_nonneg; [lia | apply odd_count_nonneg]).
    assert (Hnz : (3 ^ odd_count j n * n =? 0) = false)
      by (apply Z.eqb_neq; nia).
    rewrite Hnz. reflexivity.
  - intros [| fuel']; reflexivity.
Qed.

Lemma residue_is_pow2_E_over_pow3_O_times_n_witness :
  exists fuel E O,
    first_hit (eq 1) reduced_step E 3 /\
    O = odd_count E 3 /\
    (forall fuel', (fuel <= fuel')%nat ->
                   residue fuel' 3 =
                   Some (Returned (inject_Z (2 ^ Z.of_nat E) /
                                   inject_Z (3 ^ O * 3))%Q)) /\
    (forall fuel', residue fuel' 1 = Some (Returned 1%Q)).
Proof.
  apply (residue_is_pow2_E_over_pow3_O_times_n 3).
  - lia.
  - exists 5%nat. reflexivity.
Defined.

(** C5: for every [n > 1] whose reduced walk reaches [1], [completeness]
    returns [O / E], where [E >= 1] is the number of iterations of the
    reduced walk from [n] to its first [1] and [O] the number of those that
    start from an odd value (they are the numbers of even and of odd values
    of the standard trajectory before its [1]); [completeness(1)] raises
    [ZeroDivisionError] and returns no value. *)
Theorem completeness_is_O_over_E_and_raises_at_one (n : Z) :
  1 < n -> (exists k, iterate reduced_step k n = 1) ->
  exists fuel E O,
    first_hit (eq 1) reduced_step E n /\
    O = odd_count E n /\
    (1 <= E)%nat /\
    (forall fuel', (fuel <= fuel')%nat ->
                   completeness fuel' n =
                   Some (Returned (inject_Z O / inject_Z (Z.of_nat E))%Q)) /\
    (exists k, first_hit (eq 1) collatz_step k n /\
               standard_even_count k n = Z.of_nat E /\
               standard_odd_count k n = O) /\
    (forall fuel', completeness fuel' 1 = Some (Raised ZeroDivisionError)).
Proof.
  intros Hn Hreach. destruct (reduced_first_one n Hreach) as [j Hj].
  assert (Hpos : (1 <= j)%nat).
  { destruct j as [| j]; [| lia]. destruct Hj as [H1 _]. simpl in H1. lia. }
  exists j, j, (odd_count j n).
  split; [exact Hj |]. split; [reflexivity |]. split; [exact Hpos |].
  split; [| split].
  - intros fuel' Hfuel. unfold completeness.
    rewrite completeness_loop_is_residue_loop.
    rewrite (residue_loop_counts j n fuel' 0 0) by (auto; lia).
    rewrite !Z.add_0_l. unfold truediv.
    assert (Hnz : (Z.of_nat j =? 0) = false) by (apply Z.eqb_neq; lia).
    rewrite Hnz. reflexivity.
  - apply reduced_counts_are_standard_counts; [lia | exact Hj].
  - intros [| fuel']; reflexivity.
Qed.

Lemma completeness_is_O_over_E_and_raises_at_one_witness :
  exists fuel E O,
    first_hit (eq 1) reduced_step E 3 /\
    O = odd_count E 3 /\
    (1 <= E)%nat /\
    (forall fuel', (fuel <= fuel')%nat ->
                   completeness fuel' 3 =
                   Some (Returned (inject_Z O / inject_Z (Z.of_nat E))%Q)) /\
    (exists k, first_hit (eq 1) collatz_step k 3 /\
               standard_even_count k 3 = Z.of_nat E /\
               standard_odd_count k 3 = O) /\
    (forall fuel', completeness fuel' 1 = Some (Raised ZeroDivisionError)).
Proof.
  apply (completeness_is_O_over_E_and_raises_at_one 3).
  - lia.
  - exists 5%nat. reflexivity.
Defined.

(** ** [st] *)

(** While the loop runs the value is never below the start: an odd step
    goes up, and an even step that goes below the start leaves the loop.
    So the test that the source makes after an even step only decides the
    same as a test after every step. *)
Lemma st_loop_counts (j : nat) :
  forall n_start n fuel k,
    1 <= n_start -> n_start <= n ->
    first_hit (descended n_start) reduced_step j n -> (j <= fuel)%nat ->
    st_loop fuel n_start n k = Some (k + Z.of_nat j + odd_count j n).
Proof.
  induction j as [| j IH]; intros n_start n fuel k Hs Hn Hfirst Hfuel.
  - destruct Hfirst as [[Hlt | H1] _]; simpl in *; [lia |]. subst n.
    destruct fuel; simpl; f_equal; lia.
  - apply first_hit_tail in Hfirst. destruct Hfirst as [Hnot Hfirst].
    assert (Hne : n <> 1) by (intros ->; apply Hnot; right; reflexivity).
    destruct fuel as [| fuel]; [lia |].
    cbn [st_loop odd_count].
    assert (H1 : (n =? 1) = false) by (apply Z.eqb_neq; exact Hne).
    rewrite H1, mod2_eqb_even, <- Z.negb_even. cbn [negb].
    unfold reduced_step in *. destruct (Z.even n) eqn:E; cbn [negb].
    + destruct (n / 2 <? n_start) eqn:Hlt.
      * apply Z.ltb_lt in Hlt.
        assert (j = 0%nat)
          by (apply (first_hit_now _ _ _ _ Hfirst); left; exact Hlt).
        subst j. simpl. f_equal. lia.
      * apply Z.ltb_ge in Hlt.
        rewrite (IH n_start (n / 2) fuel) by (auto; lia). f_equal. lia.
    + assert (Hup : n_start <= (3 * n + 1) / 2)
        by (rewrite (reduced_step_odd n E);
            pose proof (odd_double_half n E); lia).
      rewrite (IH n_start ((3 * n + 1) / 2) fuel) by (auto; lia).
      f_equal. lia.
Qed.

Lemma descended_decidable (n_start v : Z) :
  descended n_start v \/ ~ descended n_start v.
Proof.
  unfold descended.
  destruct (Z_lt_ge_dec v n_start); [left; left; assumption |].
  destruct (Z.eq_dec v 1); [left; right; assumption |].
  right. intros [H | H]; lia.
Qed.

(** As long as no value of the walk has descended, the loop goes on. *)
Lemma st_loop_runs_out (fuel : nat) :
  forall n_start n k,
    1 <= n_start -> n_start <= n ->
    (forall i, (i <= fuel)%nat ->
               ~ descended n_start (iterate reduced_step i n)) ->
    st_loop fuel n_start n k = None.
Proof.
  induction fuel as [| fuel IH]; intros n_start n k Hs Hn Hnone.
  - assert (Hne : n <> 1)
      by (intros ->; apply (Hnone 0%nat); [lia | right; reflexivity]).
    simpl. apply Z.eqb_neq in Hne. rewrite Hne. reflexivity.
  - assert (Hne : n <> 1)
      by (intros ->; apply (Hnone 0%nat); [lia | right; reflexivity]).
    assert (Hnext : ~ descended n_start (reduced_step n))
      by (apply (Hnone 1%nat); lia).
    assert (Hrest : forall i, (i <= fuel)%nat ->
                              ~ descended n_start
                                  (iterate reduced_step i (reduced_step n)))
      by (intros i Hi; apply (Hnone (S i)); lia).
    cbn [st_loop].
    assert (H1 : (n =? 1) = false) by (apply Z.eqb_neq; exact Hne).
    rewrite H1, mod2_eqb_even. cbn [negb].
    unfold descended, reduced_step in *. destruct (Z.even n) eqn:E.
    + assert (Hge : (n / 2 <? n_start) = false) by (apply Z.ltb_ge; lia).
      rewrite Hge. apply IH; [exact Hs | lia | exact Hrest].
    + apply IH; [exact Hs | lia | exact Hrest].
Qed.

(** C2: [st] returns [1] for every even [n >= 2]; for an odd [n >= 1] it
    walks the reduced step and returns, at the first step [j] whose value
    is below [n] or is [1] (and at no other), the counter [j + O], one unit
    for each of the [j] iterations and one more for each of the [O]
    iterations that start from an odd value. *)
Theorem st_counts_steps_to_first_descent (n : Z) :
  1 <= n ->
  (Z.even n = true -> 2 <= n /\ forall fuel, st fuel n = Some 1) /\
  (Z.even n = false ->
   (forall j, first_hit (descended n) reduced_step j n ->
              forall fuel, (j <= fuel)%nat ->
                           st fuel n = Some (Z.of_nat j + odd_count j n)) /\
   (forall fuel r, st fuel n = Some r ->
                   exists j, (j <= fuel)%nat /\
                             first_hit (descended n) reduced_step j n /\
                             r = Z.of_nat j + odd_count j n)).
Proof.
  intros Hn. split; intros E.
  - split; [pose proof (even_double_half n E); lia |].
    intros fuel. unfold st. rewrite mod2_eqb_even, E. reflexivity.
  - assert (Hforward :
             forall j, first_hit (descended n) reduced_step j n ->
                       forall fuel, (j <= fuel)%nat ->
                                    st fuel n = Some (Z.of_nat j + odd_count j n)).
    { intros j Hj fuel Hfuel. unfold st. rewrite mod2_eqb_even, E.
      cbv zeta. rewrite (st_loop_counts j n n fuel 0) by (auto; lia).
      f_equal. }
    split; [exact Hforward |].
    intros fuel r Hr.
    destruct (first_hit_within reduced_step (descended n)
                (descended_decidable n) fuel n)
      as [(j & Hj & Hfirst) | Hnone].
    + exists j. split; [exact Hj |]. split; [exact Hfirst |].
      rewrite (Hforward j Hfirst fuel Hj) in Hr. congruence.
    + unfold st in Hr. rewrite mod2_eqb_even, E in Hr. cbv zeta in Hr.
      rewrite (st_loop_runs_out fuel n n 0) in Hr by (auto; lia).
      discriminate.
Qed.

Lemma first_descent_of_3 : first_hit (descended 3) reduced_step 4 3.
Proof.
  split.
  - left. vm_compute. reflexivity.
  - intros i Hi. unfold descended.
    do 4 (destruct i as [| i]; [vm_compute; intros [H | H]; discriminate |]).
    lia.
Defined.

Lemma st_counts_steps_to_first_descent_witness :
  st 4 3 = Some 6 /\ st 0 6 = Some 1.
Proof.
  split.
  - apply (proj1 (proj2 (st_counts_steps_to_first_descent 3 ltac:(lia))
                    eq_refl) 4%nat first_descent_of_3 4%nat (le_n 4)).
  - apply (proj1 (st_counts_steps_to_first_descent 6 ltac:(lia)) eq_refl).
Defined.

(** ** [CtoPo2] *)

Lemma is_power_of_two_positive (x : Z) : is_power_of_two x -> 1 <= x.
Proof.
  intros (k & Hk & ->). pose proof (pow2_pos k Hk). lia.
Qed.

Lemma is_power_of_two_decidable (x : Z) :
  is_power_of_two x \/ ~ is_power_of_two x.
Proof.
  destruct (Z_le_gt_dec 1 x) as [Hx | Hx].
  - destruct (isPo2_decides x Hx) as (fuel & [|] & _ & Hiff).
    + left. apply Hiff. reflexivity.
    + right. intros H. apply Hiff in H. discriminate.
  - right. intros H. apply is_power_of_two_positive in H. lia.
Qed.

(** From some fuel on, [isPo2] answers on a positive integer. *)
Lemma isPo2_answers (n : Z) :
  1 <= n ->
  exists fuel0, forall fuel, (fuel0 <= fuel)%nat ->
    (is_power_of_two n -> isPo2 fuel n = Some true) /\
    (~ is_power_of_two n -> isPo2 fuel n = Some false).
Proof.
  intros Hn. destruct (isPo2_decides n Hn) as (fuel0 & b & Hb & Hiff).
  exists fuel0. intros fuel Hle.
  pose proof (isPo2_mono fuel0 fuel n b Hb Hle) as Hb'.
  destruct b; split; intros H; try exact Hb'.
  - exfalso. apply H, Hiff. reflexivity.
  - apply Hiff in H. discriminate.
Qed.

Lemma CtoPo2_step_eq (n : Z) :
  (if n mod 2 =? 0 then n / 2 else 3 * n + 1) = collatz_step n.
Proof.
  unfold collatz_step. rewrite mod2_eqb_even. reflexivity.
Qed.

(** The loop appends the values visited up to the first power of two. *)
Lemma CtoPo2_loop_returns (k : nat) :
  forall n, 1 <= n -> first_hit is_power_of_two collatz_step k n ->
    exists fuel0, forall fuel seq_list, (fuel0 <= fuel)%nat ->
      CtoPo2_loop fuel n seq_list =
      Some (seq_list ++ visited_after collatz_step k n).
Proof.
  induction k as [| k IH]; intros n Hn Hfirst.
  - destruct Hfirst as [Hpow _]. simpl in Hpow.
    destruct (isPo2_answers n Hn) as [fuel0 Hans].
    exists fuel0. intros fuel seq_list Hle.
    destruct (Hans fuel Hle) as [Hyes _]. specialize (Hyes Hpow).
    unfold visited_after. simpl. rewrite app_nil_r.
    destruct fuel; simpl; rewrite Hyes; reflexivity.
  - apply first_hit_tail in Hfirst. destruct Hfirst as [Hnot Hfirst].
    destruct (IH (collatz_step n) (collatz_step_positive n Hn) Hfirst)
      as [fuel1 Hrec].
    destruct (isPo2_answers n Hn) as [fuel0 Hans].
    exists (S (Nat.max fuel0 fuel1)). intros fuel seq_list Hle.
    destruct fuel as [| fuel]; [lia |].
    destruct (Hans (S fuel)) as [_ Hno]; [lia |]. specialize (Hno Hnot).
    cbn [CtoPo2_loop]. rewrite Hno, CtoPo2_step_eq.
    rewrite Hrec by lia.
    rewrite visited_after_succ, <- app_assoc. reflexivity.
Qed.

Lemma CtoPo2_loop_mono (fuel : nat) :
  forall n seq_list l fuel',
    CtoPo2_loop fuel n seq_list = Some l -> (fuel <= fuel')%nat ->
    CtoPo2_loop fuel' n seq_list = Some l.
Proof.
  induction fuel as [| fuel IH]; intros n seq_list l fuel' H Hle.
  - simpl in H. destruct (isPo2 0 n) as [[|] |] eqn:E; try discriminate.
    apply isPo2_mono with (fuel' := fuel') in E; [| lia].
    destruct fuel'; simpl; rewrite E; exact H.
  - destruct fuel' as [| fuel']; [lia |].
    cbn [CtoPo2_loop] in *.
    destruct (isPo2 (S fuel) n) as [[|] |] eqn:E; try discriminate;
      apply isPo2_mono with (fuel' := S fuel') in E; try lia; rewrite E.
    + exact H.
    + apply IH; [exact H | lia].
Qed.

(** The start of a walk to a first power of two does not come back. *)
Lemma start_not_visited (k : nat) (n : Z) :
  first_hit is_power_of_two collatz_step k n ->
  ~ In n (visited_after collatz_step k n).
Proof.
  intros [Hk Hlt] Hin. apply in_visited_after in Hin.
  destruct Hin as (i & Hi & Heq).
  apply (Hlt (k - i)%nat); [lia |].
  replace k with (i + (k - i))%nat in Hk by lia.
  rewrite iterate_add, <- Heq in Hk. exact Hk.
Qed.

Lemma visited_ends_at_first_power_of_two (k : nat) (n : Z) :
  first_hit is_power_of_two collatz_step (S k) n ->
  ends_at_first_power_of_two (visited_after collatz_step (S k) n).
Proof.
  intros [Hk Hlt].
  exists (visited_after collatz_step k n), (iterate collatz_step (S k) n).
  split; [apply visited_after_snoc |]. split; [exact Hk |].
  intros y Hy. apply in_visited_after in Hy. destruct Hy as (i & Hi & ->).
  apply Hlt. lia.
Qed.

(** C8, as the code has it: for every [n >= 1] whose trajectory meets a
    power of two, [CtoPo2] returns the values visited after [n] under the
    standard step, up to the first power of two of the walk that starts at
    [n], and [n] itself is not among them.  When [n] is a power of two the
    loop is not entered and the list is empty; otherwise the list is not
    empty, its last element is a power of two and no earlier element is. *)
Theorem CtoPo2_returns_walk_to_first_power_of_two (n : Z) :
  1 <= n -> (exists k, is_power_of_two (iterate collatz_step k n)) ->
  exists fuel k,
    first_hit is_power_of_two collatz_step k n /\
    (forall fuel', (fuel <= fuel')%nat ->
                   CtoPo2 fuel' n = Some (visited_after collatz_step k n)) /\
    ~ In n (visited_after collatz_step k n) /\
    (is_power_of_two n -> visited_after collatz_step k n = []) /\
    (~ is_power_of_two n ->
     ends_at_first_power_of_two (visited_after collatz_step k n)).
Proof.
  intros Hn [k0 Hk0].
  destruct (first_hit_exists collatz_step is_power_of_two
              is_power_of_two_decidable k0 n Hk0) as (k & _ & Hk).
  destruct (CtoPo2_loop_returns k n Hn Hk) as [fuel Hret].
  exists fuel, k. split; [exact Hk |].
  split; [intros fuel' Hle; apply (Hret fuel' [] Hle) |].
  split; [apply start_not_visited; exact Hk |]. split.
  - intros Hpow. rewrite (first_hit_now _ _ _ _ Hk Hpow). reflexivity.
  - intros Hnot. destruct k as [| k].
    + destruct Hk as [Hpow _]. contradiction.
    + apply visited_ends_at_first_power_of_two. exact Hk.
Qed.

Lemma CtoPo2_returns_walk_to_first_power_of_two_witness :
  exists fuel k,
    first_hit is_power_of_two collatz_step k 10 /\
    (forall fuel', (fuel <= fuel')%nat ->
                   CtoPo2 fuel' 10 = Some (visited_after collatz_step k 10)) /\
    ~ In 10 (visited_after collatz_step k 10) /\
    (is_power_of_two 10 -> visited_after collatz_step k 10 = []) /\
    (~ is_power_of_two 10 ->
     ends_at_first_power_of_two (visited_after collatz_step k 10)).
Proof.
  apply (CtoPo2_returns_walk_to_first_power_of_two 10).
  - lia.
  - exists 2%nat, 4. split; [lia | reflexivity].
Defined.

(** C8, as the specification words it, fails at [n = 8]: [8] is a power of two, the
    loop is not entered, and the empty list that [CtoPo2] returns has no
    last element. *)
Lemma CtoPo2_of_8_is_empty :
  CtoPo2 3 8 = Some [] /\
  ~ (exists fuel l, CtoPo2 fuel 8 = Some l /\ ends_at_first_power_of_two l).
Proof.
  split; [reflexivity |].
  intros (fuel & l & Hret & front & x & Hl & _).
  assert (Hempty : CtoPo2 (Nat.max fuel 3) 8 = Some []).
  { apply (CtoPo2_loop_mono 3); [reflexivity | lia]. }
  apply (CtoPo2_loop_mono fuel) with (fuel' := Nat.max fuel 3) in Hret;
    [| lia].
  unfold CtoPo2 in Hempty. rewrite Hret in Hempty.
  injection Hempty as ->. destruct front; discriminate.
Qed.

(** * Further properties of the code *)

(** ** [uptree] and the tree as the inverse of the Collatz map *)

Lemma in_uptree_iff (n p : Z) : In p (uptree n) <-> collatz_step p = n.
Proof.
  split.
  - intros Hp. unfold collatz_step.
    destruct (uptree_cases n) as [[Hm Hu] | [Hm Hu]]; rewrite Hu in Hp;
      cbn [In] in Hp.
    + destruct Hp as [<- | []].
      replace (Z.even (2 * n)) with true
        by (rewrite Z.even_mul; reflexivity).
      rewrite Z.mul_comm. apply Z.div_mul. lia.
    + destruct Hp as [<- | [<- | []]].
      * replace (Z.even (2 * n)) with true
          by (rewrite Z.even_mul; reflexivity).
        rewrite Z.mul_comm. apply Z.div_mul. lia.
      * destruct (uptree_second_branch n Hm) as (q & Hq & Hdiv).
        rewrite Hdiv.
        replace (Z.even (2 * q + 1)) with false
          by (rewrite Z.even_add, Z.even_mul; reflexivity).
        lia.
  - intros Hs. unfold collatz_step in Hs. destruct (Z.even p) eqn:E.
    + pose proof (even_double_half p E) as Hp.
      assert (H2 : 2 * n = p) by lia.
      destruct (uptree_cases n) as [[_ ->] | [_ ->]]; left; exact H2.
    + pose proof (odd_double_half p E) as Hp.
      assert (Hm : n mod 6 = 4).
      { rewrite <- Hs. replace (3 * p + 1) with (4 + (p / 2) * 6) by lia.
        rewrite Z_mod_plus_full. reflexivity. }
      destruct (uptree_cases n) as [[Hne _] | [_ ->]]; [contradiction |].
      right; left.
      destruct (uptree_second_branch n Hm) as (q & Hq & Hdiv). lia.
Qed.

Lemma uptree_nodup (n : Z) : NoDup (uptree n).
Proof.
  destruct (uptree_cases n) as [[_ ->] | [Hm ->]].
  - constructor; [intros [] | constructor].
  - destruct (uptree_second_branch n Hm) as (q & Hq & Hdiv). rewrite Hdiv.
    constructor; [intros [H | []]; lia |].
    constructor; [intros [] | constructor].
Qed.

(** X1: [uptree n] lists the predecessors of [n] under the Collatz map,
    all of them and each once: [p] is in the list exactly when one step
    takes [p] to [n], for every integer [n]. *)
Theorem uptree_lists_every_predecessor_once (n : Z) :
  (forall p, In p (uptree n) <-> collatz_step p = n) /\ NoDup (uptree n).
Proof.
  split.
  - intros p. apply in_uptree_iff.
  - apply uptree_nodup.
Qed.

Lemma in_generation_iff (r : Z) (g : nat) :
  forall x, In x (generation r g) <-> iterate collatz_step g x = r.
Proof.
  induction g as [| g IH]; intros x.
  - simpl. split; [intros [H | []]; congruence | intros H; left; congruence].
  - cbn [generation iterate]. rewrite in_flat_map. split.
    + intros (y & Hy & Hx). apply IH in Hy. apply in_uptree_iff in Hx.
      congruence.
    + intros H. exists (collatz_step x). split.
      * apply IH. exact H.
      * apply in_uptree_iff. reflexivity.
Qed.

Lemma nth_generations (r : Z) (d g : nat) :
  (g <= d)%nat ->
  nth g (map (generation r) (seq 0 (S d))) [] = generation r g.
Proof.
  intros Hg.
  rewrite (nth_indep _ [] (generation r 0))
    by (rewrite length_map, length_seq; lia).
  rewrite (map_nth (generation r)), seq_nth by lia. reflexivity.
Qed.

Lemma in_all_generations (r : Z) (d : nat) (x : Z) :
  In x (concat (map (generation r) (seq 0 (S d)))) <->
  exists g, (g <= d)%nat /\ iterate collatz_step g x = r.
Proof.
  rewrite in_concat. split.
  - intros (l & Hl & Hx). apply in_map_iff in Hl.
    destruct Hl as (g & <- & Hg). apply in_seq in Hg.
    exists g. split; [lia | apply in_generation_iff; exact Hx].
  - intros (g & Hg & Hx). exists (generation r g). split.
    + apply in_map. apply in_seq. lia.
    + apply in_generation_iff. exact Hx.
Qed.

Lemma in_sorted_iff (l : list Z) (x : Z) : In x (sorted l) <-> In x l.
Proof.
  split; apply Permutation_in;
    [apply sorted_permutation | apply Permutation_sym, sorted_permutation].
Qed.

(** X2: the tree above [r] of height [d] holds exactly the integers whose
    trajectory meets [r]: generation [g] is made of the [x] that reach [r]
    in [g] steps of the Collatz map, and the flat list of the [x] that
    reach [r] in at most [d] steps. *)
Theorem tree_holds_what_reaches_the_root (r d : Z) :
  exists flat generations,
    tree (mkTree r d) = (flat, generations) /\
    (forall g x, (g <= Z.to_nat d)%nat ->
                 (In x (nth g generations []) <->
                  iterate collatz_step g x = r)) /\
    (forall x, In x flat <->
               exists g, (g <= Z.to_nat d)%nat /\
                         iterate collatz_step g x = r).
Proof.
  rewrite tree_returns. eexists. eexists. split; [reflexivity |]. split.
  - intros g x Hg. rewrite nth_generations by exact Hg.
    apply in_generation_iff.
  - intros x. rewrite in_sorted_iff. apply in_all_generations.
Qed.

(** ** The size of the tree *)

Lemma flat_map_uptree_length (l : list Z) :
  (length l <= length (flat_map uptree l) <= 2 * length l)%nat.
Proof.
  induction l as [| y l IH]; [simpl; lia |].
  cbn [flat_map]. rewrite length_app. cbn [length].
  destruct (uptree_cases y) as [[_ ->] | [_ ->]]; cbn [length]; lia.
Qed.

Lemma generation_length (r : Z) (g : nat) :
  (1 <= length (generation r g) <= 2 ^ g)%nat.
Proof.
  induction g as [| g IH]; [simpl; lia |].
  cbn [generation].
  pose proof (flat_map_uptree_length (generation r g)) as H.
  rewrite Nat.pow_succ_r'. lia.
Qed.

Lemma all_generations_length (r : Z) (d : nat) :
  (S d <= length (concat (map (generation r) (seq 0 (S d))))
   <= 2 ^ S d - 1)%nat.
Proof.
  induction d as [| d IH]; [simpl; lia |].
  rewrite (seq_S (S d)), map_app, concat_app, length_app.
  cbn [map concat Nat.add]. rewrite app_nil_r.
  pose proof (generation_length r (S d)) as Hg.
  rewrite (Nat.pow_succ_r' 2 (S d)).
  assert (Hp : (1 <= 2 ^ S d)%nat)
    by (apply Nat.neq_0_lt_0, Nat.pow_nonzero; lia).
  lia.
Qed.

(** X3: the tree grows by at most a factor two per generation: no
    generation is empty, each has at least as many elements as the one
    before and at most twice as many, generation [g] has at most [2^g], and
    the flat list has between [d + 1] and [2^(d+1) - 1] elements. *)
Theorem tree_size_bounds (r d : Z) :
  exists flat generations,
    tree (mkTree r d) = (flat, generations) /\
    (forall g, (g <= Z.to_nat d)%nat ->
               (1 <= length (nth g generations []) <= 2 ^ g)%nat) /\
    (forall g, (S g <= Z.to_nat d)%nat ->
               (length (nth g generations [])
                <= length (nth (S g) generations [])
                <= 2 * length (nth g generations []))%nat) /\
    (S (Z.to_nat d) <= length flat <= 2 ^ S (Z.to_nat d) - 1)%nat.
Proof.
  rewrite tree_returns. eexists. eexists. split; [reflexivity |].
  split; [| split].
  - intros g Hg. rewrite nth_generations by exact Hg.
    apply generation_length.
  - intros g Hg. rewrite !nth_generations by lia.
    apply flat_map_uptree_length.
  - rewrite (Permutation_length (sorted_permutation _)).
    apply all_generations_length.
Qed.

(** ** Duplicates in the tree *)

Lemma flat_map_nodup (f : Z -> list Z) (l : list Z) :
  NoDup l ->
  (forall y, NoDup (f y)) ->
  (forall x y1 y2, In x (f y1) -> In x (f y2) -> y1 = y2) ->
  NoDup (flat_map f l).
Proof.
  intros Hl Hf Hinj. induction Hl as [| y l Hy Hl IH]; [constructor |].
  cbn [flat_map]. apply NoDup_app; [apply Hf | exact IH |].
  intros x Hx Hin. apply in_flat_map in Hin. destruct Hin as (y' & Hy' & Hx').
  rewrite (Hinj x y y' Hx Hx') in Hy. contradiction.
Qed.

Lemma generation_nodup (r : Z) (g : nat) : NoDup (generation r g).
Proof.
  induction g as [| g IH].
  - constructor; [intros [] | constructor].
  - cbn [generation]. apply flat_map_nodup; [exact IH | apply uptree_nodup |].
    intros x y1 y2 H1 H2.
    apply in_uptree_iff in H1. apply in_uptree_iff in H2. congruence.
Qed.

Lemma generations_from_nodup (r : Z) (d : nat) :
  (forall k, (1 <= k <= d)%nat -> iterate collatz_step k r <> r) ->
  forall len start, (start + len <= S d)%nat ->
    NoDup (concat (map (generation r) (seq start len))).
Proof.
  intros Hcycle. induction len as [| len IH]; intros start Hle.
  - constructor.
  - cbn [seq map concat]. apply NoDup_app.
    + apply generation_nodup.
    + apply IH. lia.
    + intros x Hx Hin. apply in_concat in Hin.
      destruct Hin as (l & Hl & Hxl). apply in_map_iff in Hl.
      destruct Hl as (g & <- & Hg). apply in_seq in Hg.
      apply in_generation_iff in Hx. apply in_generation_iff in Hxl.
      apply (Hcycle (g - start)%nat); [lia |].
      replace g with (start + (g - start))%nat in Hxl by lia.
      rewrite iterate_add, Hx in Hxl. exact Hxl.
Qed.

(** X4: the sorted flat list of the tree has a duplicate exactly when the
    root lies on a cycle of the Collatz map that the height of the tree
    covers: no integer occurs twice if and only if no [k] with
    [1 <= k <= d] steps takes [r] back to [r] (as three steps do for the
    roots [1], [2] and [4]). *)
Theorem tree_has_duplicates_only_on_a_cycle (r d : Z) :
  exists flat generations,
    tree (mkTree r d) = (flat, generations) /\
    (NoDup flat <->
     forall k, (1 <= k <= Z.to_nat d)%nat -> iterate collatz_step k r <> r).
Proof.
  rewrite tree_returns. eexists. eexists. split; [reflexivity |]. split.
  - intros Hnd k Hk Hback.
    apply (Permutation_NoDup (sorted_permutation _)) in Hnd.
    cbn [seq map concat] in Hnd. cbn [generation app] in Hnd.
    apply NoDup_cons_iff in Hnd. destruct Hnd as [Hnot _]. apply Hnot.
    apply in_concat. exists (generation r k). split.
    + apply in_map. apply in_seq. lia.
    + apply in_generation_iff. exact Hback.
  - intros Hcycle.
    apply (Permutation_NoDup (Permutation_sym (sorted_permutation _))).
    apply (generations_from_nodup r (Z.to_nat d) Hcycle). lia.
Qed.

(** ** The trajectories: edge input, repetition, and [T] against [C] *)

(** X5: on every [n <= 1] (one, zero and the negative integers) the loop
    [while n > 1] is not entered: both generators yield [n] alone and
    [tst] returns [1], whatever the fuel. *)
Theorem generators_yield_only_n_when_n_at_most_one (n : Z) :
  n <= 1 ->
  forall fuel,
    C fuel n = Some [n] /\ T fuel n = Some [n] /\ tst fuel n = Some 1.
Proof.
  intros Hn fuel.
  assert (Hgt : (n >? 1) = false) by (rewrite Z.gtb_ltb; apply Z.ltb_ge; lia).
  unfold tst, C, T, colgen, redcolgen.
  destruct fuel; simpl; rewrite Hgt; repeat split; reflexivity.
Qed.

Lemma generators_yield_only_n_when_n_at_most_one_witness :
  C 0 (-3) = Some [-3] /\ T 0 (-3) = Some [-3] /\ tst 0 (-3) = Some 1.
Proof.
  apply (generators_yield_only_n_when_n_at_most_one (-3)). lia.
Defined.

(** A walk does not come back to a value before its first [1]. *)
Lemma walk_to_first_one_injective (f : Z -> Z) (k : nat) (n : Z) :
  first_hit (eq 1) f k n ->
  forall i j, (i <= k)%nat -> (j <= k)%nat ->
              iterate f i n = iterate f j n -> i = j.
Proof.
  intros [Hk Hlt].
  assert (Hlt' : forall i j, (i < j)%nat -> (j <= k)%nat ->
                             iterate f i n <> iterate f j n).
  { intros i j Hij Hj Heq. apply (Hlt (i + (k - j))%nat); [lia |].
    rewrite iterate_add, Heq, <- iterate_add.
    replace (j + (k - j))%nat with k by lia. exact Hk. }
  intros i j Hi Hj Heq.
  destruct (Nat.lt_trichotomy i j) as [H | [H | H]]; [| exact H |].
  - exfalso. exact (Hlt' i j H Hj Heq).
  - exfalso. exact (Hlt' j i H Hi (eq_sym Heq)).
Qed.

Lemma walk_to_first_one_nodup (f : Z -> Z) (k : nat) (n : Z) :
  first_hit (eq 1) f k n -> NoDup (n :: visited_after f k n).
Proof.
  intros Hfirst.
  change (n :: visited_after f k n)
    with (map (fun i => iterate f i n) (seq 0 (S k))).
  apply NoDup_map_NoDup_ForallPairs; [| apply seq_NoDup].
  intros i j Hi Hj Heq. apply in_seq in Hi. apply in_seq in Hj.
  apply (walk_to_first_one_injective f k n Hfirst); [lia | lia | exact Heq].
Qed.

Lemma walk_positive (f : Z -> Z) (k : nat) (n : Z) :
  (forall x, 1 <= x -> 1 <= f x) -> 1 <= n ->
  forall x, In x (n :: visited_after f k n) -> 1 <= x.
Proof.
  intros Hf Hn x [<- | Hx]; [exact Hn |].
  apply in_visited_after in Hx. destruct Hx as (i & _ & ->).
  apply iterate_positive; assumption.
Qed.

(** X6: for every [n >= 1] whose trajectory reaches [1], the lists that
    [C] and [T] return have no value twice and hold positive integers
    only. *)
Theorem trajectories_never_repeat_a_value (n : Z) :
  1 <= n -> reaches_one n ->
  exists fuel l lr,
    (forall fuel', (fuel <= fuel')%nat ->
                   C fuel' n = Some l /\ T fuel' n = Some lr) /\
    NoDup l /\ NoDup lr /\
    (forall x, In x l -> 1 <= x) /\ (forall x, In x lr -> 1 <= x).
Proof.
  intros Hn [k Hk].
  destruct (reduced_walk_reaches_one k n Hn Hk) as (kr & _ & Hkr).
  destruct (first_hit_exists collatz_step (eq 1) eq_one_decidable k n)
    as (j & _ & Hj); [symmetry; exact Hk |].
  destruct (first_hit_exists reduced_step (eq 1) eq_one_decidable kr n)
    as (jr & _ & Hjr); [symmetry; exact Hkr |].
  exists (Nat.max j jr), (n :: visited_after collatz_step j n),
    (n :: visited_after reduced_step jr n).
  split; [| split; [| split; [| split]]].
  - intros fuel' Hfuel. split.
    + apply C_returns; [exact Hn | exact Hj | lia].
    + apply T_returns; [exact Hn | exact Hjr | lia].
  - apply walk_to_first_one_nodup. exact Hj.
  - apply walk_to_first_one_nodup. exact Hjr.
  - apply walk_positive; [apply collatz_step_positive | exact Hn].
  - apply walk_positive; [apply reduced_step_positive | exact Hn].
Qed.

Lemma trajectories_never_repeat_a_value_witness :
  exists fuel l lr,
    (forall fuel', (fuel <= fuel')%nat ->
                   C fuel' 27 = Some l /\ T fuel' 27 = Some lr) /\
    NoDup l /\ NoDup lr /\
    (forall x, In x l -> 1 <= x) /\ (forall x, In x lr -> 1 <= x).
Proof.
  apply (trajectories_never_repeat_a_value 27).
  - lia.
  - exists 111%nat. vm_compute. reflexivity.
Defined.

Lemma drop_after_odd_keep (x : Z) (l : list Z) :
  drop_after_odd false (x :: l) = x :: drop_after_odd (Z.odd x) l.
Proof.
  reflexivity.
Qed.

Lemma drop_after_odd_skip (x : Z) (l : list Z) :
  drop_after_odd true (x :: l) = drop_after_odd false l.
Proof.
  reflexivity.
Qed.

(** The standard walk to [1] is the reduced walk with the value [3x + 1]
    put back after each odd [x]. *)
Lemma standard_walk_of_reduced_walk (j : nat) :
  forall n, 1 <= n -> first_hit (eq 1) reduced_step j n ->
    exists k, first_hit (eq 1) collatz_step k n /\
              Z.of_nat k = Z.of_nat j + odd_count j n /\
              drop_after_odd false (n :: visited_after collatz_step k n) =
              n :: visited_after reduced_step j n.
Proof.
  induction j as [| j IH]; intros n Hn Hfirst.
  - exists 0%nat. destruct Hfirst as [H1 _].
    split; [apply first_hit_zero; exact H1 | split; reflexivity].
  - apply first_hit_tail in Hfirst. destruct Hfirst as [Hne Hfirst].
    destruct (IH (reduced_step n) (reduced_step_positive n Hn) Hfirst)
      as (k & Hk & Hlen & Hdrop).
    destruct (Z.even n) eqn:E.
    + assert (Hs : collatz_step n = reduced_step n)
        by (unfold collatz_step, reduced_step; rewrite E; reflexivity).
      exists (S k). split; [| split].
      * apply first_hit_succ; [exact Hne | rewrite Hs; exact Hk].
      * cbn [odd_count]. rewrite <- Z.negb_even, E. cbn [negb]. lia.
      * rewrite !visited_after_succ, drop_after_odd_keep.
        rewrite <- Z.negb_even, E. cbn [negb].
        rewrite Hs, Hdrop. reflexivity.
    + pose proof (collatz_step_twice_odd n E) as Hs.
      assert (Hmid : collatz_step n = 3 * n + 1)
        by (unfold collatz_step; rewrite E; reflexivity).
      exists (S (S k)). split; [| split].
      * apply first_hit_succ; [exact Hne |].
        apply first_hit_succ; [rewrite Hmid; lia | rewrite Hs; exact Hk].
      * cbn [odd_count]. rewrite <- Z.negb_even, E. cbn [negb]. lia.
      * rewrite (visited_after_succ collatz_step (S k)).
        rewrite (visited_after_succ collatz_step k).
        rewrite (visited_after_succ reduced_step j).
        rewrite drop_after_odd_keep, <- Z.negb_even, E. cbn [negb].
        rewrite drop_after_odd_skip, Hs, Hdrop. reflexivity.
Qed.

(** X7: for every [n >= 1] whose trajectory reaches [1], [T(n)] is [C(n)]
    without the value that follows each odd value (the [3x + 1] that the
    reduced step folds away), and [C(n)] is longer than [T(n)] by the
    number of odd values that the reduced walk steps from. *)
Theorem T_is_C_without_the_value_after_each_odd_one (n : Z) :
  1 <= n -> reaches_one n ->
  exists fuel l lr,
    (forall fuel', (fuel <= fuel')%nat ->
                   C fuel' n = Some l /\ T fuel' n = Some lr) /\
    lr = drop_after_odd false l /\
    Z.of_nat (length l) =
    Z.of_nat (length lr) + odd_count (length lr - 1) n.
Proof.
  intros Hn [k0 Hk0].
  destruct (reduced_walk_reaches_one k0 n Hn Hk0) as (kr & _ & Hkr).
  destruct (first_hit_exists reduced_step (eq 1) eq_one_decidable kr n)
    as (j & _ & Hj); [symmetry; exact Hkr |].
  destruct (standard_walk_of_reduced_walk j n Hn Hj) as (k & Hk & Hlen & Hdrop).
  exists (Nat.max k j), (n :: visited_after collatz_step k n),
    (n :: visited_after reduced_step j n).
  split; [| split].
  - intros fuel' Hfuel. split.
    + apply C_returns; [exact Hn | exact Hk | lia].
    + apply T_returns; [exact Hn | exact Hj | lia].
  - symmetry. exact Hdrop.
  - cbn [length]. rewrite !visited_after_length.
    replace (S j - 1)%nat with j by lia. lia.
Qed.

Lemma T_is_C_without_the_value_after_each_odd_one_witness :
  exists fuel l lr,
    (forall fuel', (fuel <= fuel')%nat ->
                   C fuel' 10 = Some l /\ T fuel' 10 = Some lr) /\
    lr = drop_after_odd false l /\
    Z.of_nat (length l) =
    Z.of_nat (length lr) + odd_count (length lr - 1) 10.
Proof.
  apply (T_is_C_without_the_value_after_each_odd_one 10).
  - lia.
  - exists 6%nat. reflexivity.
Defined.

(** ** [st] as the stopping time of the standard trajectory *)

(** A standard walk that goes below [m] contains a reduced walk that
    does. *)
Lemma reduced_walk_descends (m : Z) (k : nat) :
  forall x, 1 <= x -> iterate collatz_step k x < m ->
            exists j, (j <= k)%nat /\ iterate reduced_step j x < m.
Proof.
  induction k as [k IH] using lt_wf_ind. intros x Hx Hk.
  destruct (Z_lt_ge_dec x m) as [Hlt | Hge].
  { exists 0%nat. split; [lia | exact Hlt]. }
  destruct k as [| k]; [simpl in Hk; lia |].
  destruct (Z.even x) eqn:E.
  - assert (Hs : collatz_step x = reduced_step x)
      by (unfold collatz_step, reduced_step; rewrite E; reflexivity).
    simpl in Hk. rewrite Hs in Hk.
    destruct (IH k (Nat.lt_succ_diag_r k) (reduced_step x)) as (j & Hj & Hr);
      [apply reduced_step_positive; exact Hx | exact Hk |].
    exists (S j). split; [lia | exact Hr].
  - destruct k as [| k].
    { simpl in Hk. unfold collatz_step in Hk. rewrite E in Hk. lia. }
    simpl in Hk. rewrite (collatz_step_twice_odd x E) in Hk.
    destruct (IH k) with (x := reduced_step x) as (j & Hj & Hr);
      [lia | apply reduced_step_positive; exact Hx | exact Hk |].
    exists (S j). split; [lia | exact Hr].
Qed.

(** The counter of [st] is the index, in the standard walk, of the first
    value below the start. *)
Lemma classical_stopping_index (n_start : Z) (j : nat) :
  forall x, 1 < n_start -> n_start <= x ->
    first_hit (descended n_start) reduced_step j x ->
    exists s, first_hit (fun v => v < n_start) collatz_step s x /\
              Z.of_nat s = Z.of_nat j + odd_count j x.
Proof.
  induction j as [| j IH]; intros x Hs Hx Hfirst.
  - destruct Hfirst as [[Hlt | H1] _]; simpl in *; lia.
  - apply first_hit_tail in Hfirst. destruct Hfirst as [_ Hfirst].
    assert (Hnlt : ~ x < n_start) by lia.
    destruct (Z.even x) eqn:E.
    + assert (Hstep : collatz_step x = reduced_step x)
        by (unfold collatz_step, reduced_step; rewrite E; reflexivity).
      assert (Hodd : odd_count (S j) x = odd_count j (reduced_step x))
        by (cbn [odd_count]; rewrite <- Z.negb_even, E; reflexivity).
      destruct (Z_lt_ge_dec (reduced_step x) n_start) as [Hlt | Hge].
      * assert (j = 0%nat)
          by (apply (first_hit_now _ _ _ _ Hfirst); left; exact Hlt).
        subst j. exists 1%nat. split.
        -- apply first_hit_succ; [exact Hnlt |].
           apply first_hit_zero. rewrite Hstep. exact Hlt.
        -- rewrite Hodd. simpl. reflexivity.
      * destruct (IH (reduced_step x) Hs) as (s & Hfs & Hlen);
          [lia | exact Hfirst |].
        exists (S s). split.
        -- apply first_hit_succ; [exact Hnlt | rewrite Hstep; exact Hfs].
        -- rewrite Hodd. lia.
    + assert (Hodd : odd_count (S j) x = 1 + odd_count j (reduced_step x))
        by (cbn [odd_count]; rewrite <- Z.negb_even, E; reflexivity).
      assert (Hmid : collatz_step x = 3 * x + 1)
        by (unfold collatz_step; rewrite E; reflexivity).
      assert (Hup : n_start <= reduced_step x).
      { unfold reduced_step. rewrite E, (reduced_step_odd x E).
        pose proof (odd_double_half x E). lia. }
      destruct (IH (reduced_step x) Hs Hup Hfirst) as (s & Hfs & Hlen).
      exists (S (S s)). split.
      * apply first_hit_succ; [exact Hnlt |].
        apply first_hit_succ; [rewrite Hmid; lia |].
        rewrite (collatz_step_twice_odd x E). exact Hfs.
      * rewrite Hodd. lia.
Qed.

Lemma st_returns_stopping_index (n : Z) :
  2 <= n -> (exists k, iterate collatz_step k n < n) ->
  exists s, first_hit (fun v => v < n) collatz_step s n /\
            forall fuel, (s <= fuel)%nat -> st fuel n = Some (Z.of_nat s).
Proof.
  intros Hn [k Hk]. destruct (Z.even n) eqn:E.
  - exists 1%nat. split.
    + apply first_hit_succ; [lia |]. apply first_hit_zero.
      unfold collatz_step. rewrite E.
      pose proof (even_double_half n E). lia.
    + intros fuel _. unfold st. rewrite mod2_eqb_even, E. reflexivity.
  - destruct (reduced_walk_descends n k n) as (j0 & _ & Hj0);
      [lia | exact Hk |].
    destruct (first_hit_exists reduced_step (descended n)
                (descended_decidable n) j0 n) as (j & _ & Hj);
      [left; exact Hj0 |].
    destruct (classical_stopping_index n j n) as (s & Hs & Hlen);
      [lia | lia | exact Hj |].
    exists s. split; [exact Hs |].
    intros fuel Hfuel. unfold st. rewrite mod2_eqb_even, E. cbv zeta.
    pose proof (odd_count_nonneg j n) as Hoc.
    rewrite (st_loop_counts j n n fuel 0) by (auto; lia).
    f_equal. lia.
Qed.

(** X8: [st] is the stopping time of the docstring: for every [n >= 2]
    whose standard trajectory goes below [n], [st(n)] returns the number
    [s >= 1] of steps of the Collatz map (not of the reduced step that the
    loop walks) after which the trajectory is below [n] for the first
    time. *)
Theorem st_is_the_stopping_time_of_the_standard_trajectory (n : Z) :
  2 <= n -> (exists k, iterate collatz_step k n < n) ->
  exists s,
    (1 <= s)%nat /\
    iterate collatz_step s n < n /\
    (forall i, (i < s)%nat -> n <= iterate collatz_step i n) /\
    (forall fuel, (s <= fuel)%nat -> st fuel n = Some (Z.of_nat s)).
Proof.
  intros Hn Hdesc.
  destruct (st_returns_stopping_index n Hn Hdesc) as (s & [Hs Hlt] & Hst).
  exists s. split; [| split; [exact Hs | split; [| exact Hst]]].
  - destruct s as [| s]; [simpl in Hs; lia | lia].
  - intros i Hi. specialize (Hlt i Hi). lia.
Qed.

Lemma st_is_the_stopping_time_of_the_standard_trajectory_witness :
  exists s,
    (1 <= s)%nat /\
    iterate collatz_step s 7 < 7 /\
    (forall i, (i < s)%nat -> 7 <= iterate collatz_step i 7) /\
    (forall fuel, (s <= fuel)%nat -> st fuel 7 = Some (Z.of_nat s)).
Proof.
  apply (st_is_the_stopping_time_of_the_standard_trajectory 7).
  - lia.
  - exists 11%nat. vm_compute. reflexivity.
Defined.

(** X9: for every [n >= 1] whose trajectory reaches [1], [st] returns as
    well, and its result is below that of [tst]: the trajectory is below
    its start no later than it is at [1]. *)
Theorem st_returns_less_than_tst (n : Z) :
  1 <= n -> reaches_one n ->
  exists fuel s t,
    (forall fuel', (fuel <= fuel')%nat ->
                   st fuel' n = Some s /\ tst fuel' n = Some t) /\
    0 <= s < t.
Proof.
  intros Hn [k0 Hk0].
  destruct (first_hit_exists collatz_step (eq 1) eq_one_decidable k0 n)
    as (K & _ & HK); [symmetry; exact Hk0 |].
  assert (Htst : forall fuel', (K <= fuel')%nat ->
                               tst fuel' n = Some (Z.of_nat (S K))).
  { intros fuel' Hfuel. unfold tst.
    pose proof (C_returns K fuel' n Hn HK Hfuel) as HC. unfold C in HC.
    rewrite HC. cbn [option_map length].
    rewrite visited_after_length. reflexivity. }
  destruct (Z.eq_dec n 1) as [-> | Hne].
  - exists K, 0, (Z.of_nat (S K)). split; [| lia].
    intros fuel' Hfuel. split; [| apply Htst; exact Hfuel].
    destruct fuel'; reflexivity.
  - destruct (st_returns_stopping_index n) as (s & Hs & Hst); [lia | |].
    { exists K. destruct HK as [<- _]. lia. }
    assert (HsK : (s <= K)%nat).
    { destruct (le_lt_dec s K) as [H | H]; [exact H |].
      destruct Hs as [_ Hlt]. destruct HK as [H1 _].
      exfalso. apply (Hlt K H). rewrite <- H1. lia. }
    exists K, (Z.of_nat s), (Z.of_nat (S K)). split; [| lia].
    intros fuel' Hfuel. split; [apply Hst; lia | apply Htst; exact Hfuel].
Qed.

Lemma st_returns_less_than_tst_witness :
  exists fuel s t,
    (forall fuel', (fuel <= fuel')%nat ->
                   st fuel' 27 = Some s /\ tst fuel' 27 = Some t) /\
    0 <= s < t.
Proof.
  apply (st_returns_less_than_tst 27).
  - lia.
  - exists 111%nat. vm_compute. reflexivity.
Defined.

(** ** [CtoPo2] against [C] *)

Lemma visited_after_app (f : Z -> Z) (a b : nat) :
  forall n, visited_after f (a + b) n =
            visited_after f a n ++ visited_after f b (iterate f a n).
Proof.
  induction a as [| a IH]; intros n; [reflexivity |].
  cbn [Nat.add iterate]. rewrite !visited_after_succ, IH. reflexivity.
Qed.

Lemma power_of_two_halves (x : Z) :
  is_power_of_two x -> x <> 1 ->
  Z.even x = true /\ is_power_of_two (x / 2).
Proof.
  intros (e & He & ->) Hne.
  assert (He1 : 1 <= e).
  { destruct (Z.eq_dec e 0) as [-> | H0]; [exfalso; apply Hne; reflexivity |].
    lia. }
  replace e with ((e - 1) + 1) by lia. rewrite pow2_succ by lia. split.
  - rewrite Z.even_mul. reflexivity.
  - exists (e - 1). split; [lia |].
    rewrite Z.mul_comm. apply Z.div_mul. lia.
Qed.

(** From a power of two the walk to [1] visits powers of two only. *)
Lemma power_of_two_walk (m : nat) :
  forall x, is_power_of_two x -> first_hit (eq 1) collatz_step m x ->
            Forall is_power_of_two (visited_after collatz_step m x).
Proof.
  induction m as [| m IH]; intros x Hpow Hfirst; [constructor |].
  apply first_hit_tail in Hfirst. destruct Hfirst as [Hne Hfirst].
  destruct (power_of_two_halves x Hpow) as [E Hhalf]; [congruence |].
  assert (Hstep : collatz_step x = x / 2)
    by (unfold collatz_step; rewrite E; reflexivity).
  rewrite visited_after_succ, Hstep. rewrite Hstep in Hfirst.
  constructor; [exact Hhalf | apply IH; assumption].
Qed.

(** X10: for every [n >= 1] whose trajectory reaches [1], [CtoPo2] returns
    too, and [C(n)] is [n], then the list of [CtoPo2(n)], then powers of
    two only: what [CtoPo2] leaves out of the trajectory is its start and
    the halvings that follow the first power of two. *)
Theorem C_is_n_then_CtoPo2_then_powers_of_two (n : Z) :
  1 <= n -> reaches_one n ->
  exists fuel l p rest,
    (forall fuel', (fuel <= fuel')%nat ->
                   C fuel' n = Some l /\ CtoPo2 fuel' n = Some p) /\
    l = n :: p ++ rest /\
    Forall is_power_of_two rest.
Proof.
  intros Hn [k0 Hk0].
  destruct (first_hit_exists collatz_step (eq 1) eq_one_decidable k0 n)
    as (K & _ & HK); [symmetry; exact Hk0 |].
  assert (Hone : is_power_of_two (iterate collatz_step K n)).
  { destruct HK as [<- _]. exists 0. split; [lia | reflexivity]. }
  destruct (first_hit_exists collatz_step is_power_of_two
              is_power_of_two_decidable K n Hone) as (k & HkK & Hk).
  destruct (CtoPo2_loop_returns k n Hn Hk) as [fuel0 Hret].
  exists (Nat.max fuel0 K), (n :: visited_after collatz_step K n),
    (visited_after collatz_step k n),
    (visited_after collatz_step (K - k) (iterate collatz_step k n)).
  split; [| split].
  - intros fuel' Hfuel. split.
    + apply C_returns; [exact Hn | exact HK | lia].
    + apply (Hret fuel' []). lia.
  - replace K with (k + (K - k))%nat at 1 by lia.
    rewrite visited_after_app. reflexivity.
  - apply power_of_two_walk; [destruct Hk as [Hp _]; exact Hp |].
    destruct HK as [H1 Hlt]. split.
    + rewrite <- iterate_add. replace (k + (K - k))%nat with K by lia.
      exact H1.
    + intros i Hi. rewrite <- iterate_add. apply Hlt. lia.
Qed.

Lemma C_is_n_then_CtoPo2_then_powers_of_two_witness :
  exists fuel l p rest,
    (forall fuel', (fuel <= fuel')%nat ->
                   C fuel' 10 = Some l /\ CtoPo2 fuel' 10 = Some p) /\
    l = 10 :: p ++ rest /\
    Forall is_power_of_two rest.
Proof.
  apply (C_is_n_then_CtoPo2_then_powers_of_two 10).
  - lia.
  - exists 6%nat. reflexivity.
Defined.

(** ** The range of [residue] and of [completeness] *)

(** As long as the walk has not met [1], the counting loop goes on. *)
Lemma residue_loop_runs_out (fuel : nat) :
  forall n e o,
    (forall i, (i <= fuel)%nat -> 1 <> iterate reduced_step i n) ->
    residue_loop fuel n e o = None.
Proof.
  induction fuel as [| fuel IH]; intros n e o Hnone.
  - assert (Hne : n <> 1)
      by (intros ->; apply (Hnone 0%nat); [lia | reflexivity]).
    simpl. apply Z.eqb_neq in Hne. rewrite Hne. reflexivity.
  - assert (Hne : n <> 1)
      by (intros ->; apply (Hnone 0%nat); [lia | reflexivity]).
    assert (Hrest : forall i, (i <= fuel)%nat ->
                              1 <> iterate reduced_step i (reduced_step n))
      by (intros i Hi; apply (Hnone (S i)); lia).
    cbn [residue_loop].
    assert (H1 : (n =? 1) = false) by (apply Z.eqb_neq; exact Hne).
    rewrite H1, mod2_eqb_even. cbn [negb].
    unfold reduced_step in Hrest. destruct (Z.even n); apply IH; exact Hrest.
Qed.

(** What the counting loop returns, when it returns. *)
Lemma residue_loop_returns_counts (fuel : nat) (n e o : Z) :
  1 <= n -> residue_loop fuel n 0 0 = Some (e, o) ->
  exists j, (j <= fuel)%nat /\ first_hit (eq 1) reduced_step j n /\
            e = Z.of_nat j /\ o = odd_count j n.
Proof.
  intros Hn Hret.
  destruct (first_hit_within reduced_step (eq 1) eq_one_decidable fuel n)
    as [(j & Hj & Hfirst) | Hnone].
  - exists j. split; [exact Hj |]. split; [exact Hfirst |].
    rewrite (residue_loop_counts j n fuel 0 0 Hn Hfirst Hj) in Hret.
    injection Hret as <- <-. split; reflexivity.
  - rewrite (residue_loop_runs_out fuel n 0 0 Hnone) in Hret. discriminate.
Qed.

(** Along the reduced walk, [3^O * n <= 2^j * x] where [x] is the value
    after [j] steps: an even step halves the value, an odd step takes less
    than two thirds of the doubled value. *)
Lemma reduced_walk_growth (j : nat) :
  forall n, 1 <= n ->
            3 ^ odd_count j n * n <=
            2 ^ Z.of_nat j * iterate reduced_step j n.
Proof.
  induction j as [| j IH]; intros n Hn.
  - simpl. lia.
  - specialize (IH (reduced_step n) (reduced_step_positive n Hn)).
    pose proof (odd_count_nonneg j (reduced_step n)) as Hoc.
    cbn [odd_count iterate].
    rewrite Nat2Z.inj_succ, <- Z.add_1_r, pow2_succ by lia.
    rewrite <- Z.negb_even.
    set (A := 3 ^ odd_count j (reduced_step n)) in *.
    set (B := 2 ^ Z.of_nat j * iterate reduced_step j (reduced_step n)) in *.
    assert (HA : 0 < A) by (apply Z.pow_pos_nonneg; lia).
    unfold reduced_step in IH. destruct (Z.even n) eqn:E; cbn [negb].
    + pose proof (even_double_half n E) as Hh.
      rewrite Z.add_0_l. fold A. nia.
    + rewrite (reduced_step_odd n E) in IH.
      pose proof (odd_double_half n E) as Hh.
      rewrite Z.pow_add_r by lia. fold A. nia.
Qed.

Lemma Q_one_le_quotient (a b : Z) :
  0 < b -> b <= a -> (1 <= inject_Z a / inject_Z b)%Q.
Proof.
  intros Hb Hab. apply Qle_shift_div_l.
  - change 0%Q with (inject_Z 0). rewrite <- Zlt_Qlt. exact Hb.
  - rewrite Qmult_1_l, <- Zle_Qle. exact Hab.
Qed.

Lemma Q_quotient_in_unit (a b : Z) :
  0 <= a -> a < b ->
  (0 <= inject_Z a / inject_Z b)%Q /\ (inject_Z a / inject_Z b < 1)%Q.
Proof.
  intros Ha Hab.
  assert (Hb : (0 < inject_Z b)%Q)
    by (change 0%Q with (inject_Z 0); rewrite <- Zlt_Qlt; lia).
  split.
  - apply Qle_shift_div_l; [exact Hb |].
    rewrite Qmult_0_l. change 0%Q with (inject_Z 0).
    rewrite <- Zle_Qle. exact Ha.
  - apply Qlt_shift_div_r; [exact Hb |].
    rewrite Qmult_1_l, <- Zlt_Qlt. exact Hab.
Qed.

(** X11: whenever [residue] returns on an [n >= 1], it returns a value (it
    raises nothing) and this value is at least [1]: [3^O * n <= 2^E]. *)
Theorem residue_is_at_least_one (n : Z) (fuel : nat) (r : outcome Q) :
  1 <= n -> residue fuel n = Some r ->
  exists q, r = Returned q /\ (1 <= q)%Q.
Proof.
  intros Hn Hret. unfold residue in Hret.
  destruct (residue_loop fuel n 0 0) as [[e o] |] eqn:Hloop; [| discriminate].
  destruct (residue_loop_returns_counts fuel n e o Hn Hloop)
    as (j & _ & [H1 _] & -> & ->).
  pose proof (reduced_walk_growth j n Hn) as Hgrow.
  rewrite <- H1, Z.mul_1_r in Hgrow.
  assert (H3 : 0 < 3 ^ odd_count j n)
    by (apply Z.pow_pos_nonneg; [lia | apply odd_count_nonneg]).
  assert (Hpos : 0 < 3 ^ odd_count j n * n) by nia.
  unfold truediv in Hret.
  replace (3 ^ odd_count j n * n =? 0) with false in Hret
    by (symmetry; apply Z.eqb_neq; lia).
  injection Hret as <-. eexists. split; [reflexivity |].
  apply Q_one_le_quotient; assumption.
Qed.

Lemma residue_is_at_least_one_witness :
  exists q, Returned (32 # 27) = Returned q /\ (1 <= q)%Q.
Proof.
  apply (residue_is_at_least_one 3 5 (Returned (32 # 27))).
  - lia.
  - reflexivity.
Defined.

(** X12: whenever [completeness] returns on an [n > 1], it returns a value
    (it raises nothing), the quotient [O / E] of counters with
    [0 <= O < E] and [3^O * n <= 2^E]: a number from [0] up to, but not
    including, [1]. *)
Theorem completeness_is_in_the_unit_interval
  (n : Z) (fuel : nat) (r : outcome Q) :
  1 < n -> completeness fuel n = Some r ->
  exists E O,
    r = Returned (inject_Z O / inject_Z E)%Q /\
    0 <= O < E /\
    3 ^ O * n <= 2 ^ E /\
    (0 <= inject_Z O / inject_Z E)%Q /\ (inject_Z O / inject_Z E < 1)%Q.
Proof.
  intros Hn Hret. unfold completeness in Hret.
  rewrite completeness_loop_is_residue_loop in Hret.
  destruct (residue_loop fuel n 0 0) as [[e o] |] eqn:Hloop; [| discriminate].
  destruct (residue_loop_returns_counts fuel n e o) as
    (j & _ & [H1 _] & -> & ->); [lia | exact Hloop |].
  pose proof (reduced_walk_growth j n) as Hgrow.
  rewrite <- H1, Z.mul_1_r in Hgrow. specialize (Hgrow ltac:(lia)).
  pose proof (odd_count_nonneg j n) as Hoc.
  assert (H3 : 0 < 3 ^ odd_count j n) by (apply Z.pow_pos_nonneg; lia).
  assert (Hlt : odd_count j n < Z.of_nat j).
  { destruct (Z_lt_ge_dec (odd_count j n) (Z.of_nat j)) as [H | H];
      [exact H | exfalso].
    assert (H23 : 2 ^ Z.of_nat j <= 3 ^ Z.of_nat j)
      by (apply Z.pow_le_mono_l; lia).
    assert (H33 : 3 ^ Z.of_nat j <= 3 ^ odd_count j n)
      by (apply Z.pow_le_mono_r; lia).
    nia. }
  unfold truediv in Hret.
  replace (Z.of_nat j =? 0) with false in Hret
    by (symmetry; apply Z.eqb_neq; lia).
  injection Hret as <-.
  exists (Z.of_nat j), (odd_count j n).
  split; [reflexivity |]. split; [lia |]. split; [exact Hgrow |].
  apply Q_quotient_in_unit; lia.
Qed.

Lemma completeness_is_in_the_unit_interval_witness :
  exists E O,
    Returned (2 # 5) = Returned (inject_Z O / inject_Z E)%Q /\
    0 <= O < E /\
    3 ^ O * 3 <= 2 ^ E /\
    (0 <= inject_Z O / inject_Z E)%Q /\ (inject_Z O / inject_Z E < 1)%Q.
Proof.
  apply (completeness_is_in_the_unit_interval 3 5 (Returned (2 # 5))).
  - lia.
  - reflexivity.
Defined.

(** ** Input outside the domain *)

Lemma reduced_step_nonpositive (n : Z) : n <= 0 -> reduced_step n <= 0.
Proof.
  intros Hn. unfold reduced_step. destruct (Z.even n) eqn:E.
  - pose proof (even_double_half n E). lia.
  - rewrite (reduced_step_odd n E). pose proof (odd_double_half n E). lia.
Qed.

Lemma iterate_reduced_nonpositive (i : nat) :
  forall n, n <= 0 -> iterate reduced_step i n <= 0.
Proof.
  induction i as [| i IH]; intros n Hn; [exact Hn |].
  simpl. apply IH, reduced_step_nonpositive, Hn.
Qed.

(** X13: on every [n <= 0] the reduced walk stays at or below zero and
    never meets [1]: [residue] and [completeness] return on no fuel, that
    is, the Python functions loop for ever. *)
Theorem residue_and_completeness_never_return_below_one (n : Z) :
  n <= 0 ->
  forall fuel, residue fuel n = None /\ completeness fuel n = None.
Proof.
  intros Hn fuel.
  assert (Hloop : residue_loop fuel n 0 0 = None).
  { apply residue_loop_runs_out. intros i _.
    pose proof (iterate_reduced_nonpositive i n Hn). lia. }
  split.
  - unfold residue. rewrite Hloop. reflexivity.
  - unfold completeness.
    rewrite completeness_loop_is_residue_loop, Hloop. reflexivity.
Qed.

Lemma residue_and_completeness_never_return_below_one_witness :
  residue 100 (-5) = None /\ completeness 100 (-5) = None.
Proof.
  apply (residue_and_completeness_never_return_below_one (-5)). lia.
Defined.

Lemma isPo2_negative_is_false (fuel : nat) (n : Z) (b : bool) :
  n <= -1 -> isPo2 fuel n = Some b -> b = false.
Proof.
  intros Hn Hb. destruct (isPo2_negative n Hn) as [fuel0 H0].
  exact (isPo2_deterministic fuel fuel0 n b false Hb H0).
Qed.

Lemma CtoPo2_loop_never_returns (fuel : nat) :
  forall n seq_list, n <= 0 -> CtoPo2_loop fuel n seq_list = None.
Proof.
  induction fuel as [| fuel IH]; intros n seq_list Hn.
  - simpl. destruct (Z.eq_dec n 0) as [-> | Hne]; [reflexivity |].
    destruct (isPo2 0 n) as [[|] |] eqn:E; try reflexivity.
    apply isPo2_negative_is_false in E; [discriminate | lia].
  - cbn [CtoPo2_loop].
    destruct (isPo2 (S fuel) n) as [[|] |] eqn:E; try reflexivity.
    + destruct (Z.eq_dec n 0) as [-> | Hne].
      * unfold isPo2 in E. rewrite isPo2_loop_zero in E. discriminate.
      * apply isPo2_negative_is_false in E; [discriminate | lia].
    + apply IH. rewrite CtoPo2_step_eq. unfold collatz_step.
      destruct (Z.even n) eqn:Ev.
      * pose proof (even_double_half n Ev). lia.
      * destruct (Z.eq_dec n 0) as [-> | Hne]; [discriminate | lia].
Qed.

(** X14: [isPo2] fails to return on [0] only: on every other integer it
    returns from some fuel on, and on the negative ones it returns
    [False]. *)
Theorem isPo2_returns_unless_zero (n : Z) :
  ((exists fuel b, isPo2 fuel n = Some b) <-> n <> 0) /\
  (n <= -1 ->
   exists fuel, forall fuel', (fuel <= fuel')%nat ->
                              isPo2 fuel' n = Some false).
Proof.
  assert (Hneg : n <= -1 ->
                 exists fuel, forall fuel', (fuel <= fuel')%nat ->
                                            isPo2 fuel' n = Some false).
  { intros Hn. destruct (isPo2_negative n Hn) as [fuel H].
    exists fuel. intros fuel' Hle. exact (isPo2_mono fuel fuel' n false H Hle). }
  split; [| exact Hneg]. split.
  - intros (fuel & b & Hb) ->. unfold isPo2 in Hb.
    rewrite isPo2_loop_zero in Hb. discriminate.
  - intros Hne. destruct (Z_le_gt_dec 1 n) as [Hpos | Hnpos].
    + destruct (isPo2_decides n Hpos) as (fuel & b & Hb & _).
      exists fuel, b. exact Hb.
    + destruct Hneg as [fuel H]; [lia |].
      exists fuel, false. apply H. lia.
Qed.

(** X15: on every [n <= 0], [CtoPo2] returns on no fuel: [isPo2(0)] does
    not return, and from a negative start the walk stays negative, where
    [isPo2] is always [False]. *)
Theorem CtoPo2_never_returns_below_one (n : Z) :
  n <= 0 -> forall fuel, CtoPo2 fuel n = None.
Proof.
  intros Hn fuel. unfold CtoPo2. apply CtoPo2_loop_never_returns. exact Hn.
Qed.

Lemma CtoPo2_never_returns_below_one_witness :
  CtoPo2 100 (-3) = None.
Proof.
  apply (CtoPo2_never_returns_below_one (-3)). lia.
Defined.
